(** * Arrays-in-C notes page: slug generation and rendering

    A shallow embedding of [app/page.tsx]: the [slugify] helper, the content
    model ([Topic], [Subtopic], [CodeSample] and the [topics] literal) and the
    [Home] component, with the properties its specification states. *)

From Stdlib Require Import String Ascii List NArith Bool Lia Arith.
Import ListNotations.

Set Implicit Arguments.
#[local] Set Warnings "-register-all".

(** ** JavaScript strings

    A JavaScript string is a sequence of UTF-16 code units.  A code unit is
    kept as an [N]; the string literals of the page are ASCII (one code unit
    per character), apart from one dash in the page heading. *)

Definition jsstring := list N.

Definition lit (s : string) : jsstring :=
  map N_of_ascii (list_ascii_of_string s).

Definition hyphen : N := 45.
Definition dquote : jsstring := [34%N].

(** [A-Z] *)
Definition is_upper (c : N) : bool := ((65 <=? c) && (c <=? 90))%N.

(** The character class [a-z0-9] of both regular expressions of [slugify]. *)
Definition in_class (c : N) : bool :=
  (((97 <=? c) && (c <=? 122)) || ((48 <=? c) && (c <=? 57)))%N.

Definition is_ascii (c : N) : bool := (c <? 128)%N.

Definition is_nil (A : Type) (l : list A) : bool :=
  match l with [] => true | _ :: _ => false end.

(** *** [String.prototype.replace] with a global regular expression

    A [matcher] stands for a regular expression: at a position of the
    subject it gets whether the position is the start of the subject (what
    [^] tests) and the rest of the subject from that position on (whose end
    is what [$] tests), and gives the length of the match that starts
    there, if there is one.  [replace_from] is the scan of
    [replace(/re/g, rep)]: at each position, left to right, a match is
    replaced by [rep] and the scan resumes after it; a code unit where no
    match starts is kept.  [skip] counts the code units of the current
    match that are still to be consumed.  Both expressions of [slugify]
    match one code unit or more, so an empty match never arises. *)

Definition matcher := bool -> jsstring -> option nat.

Fixpoint replace_from (m : matcher) (rep : jsstring)
    (at_start : bool) (skip : nat) (s : jsstring) : jsstring :=
  match s with
  | [] => []
  | c :: r =>
      match skip with
      | S k => replace_from m rep false k r
      | O =>
          match m at_start s with
          | Some (S k) => rep ++ replace_from m rep false k r
          | _ => c :: replace_from m rep false O r
          end
      end
  end.

Definition replaceAll (m : matcher) (rep : jsstring) (s : jsstring) : jsstring :=
  replace_from m rep true 0 s.

(** [/[^a-z0-9]+/]: the longest run of code units outside the class. *)
Fixpoint run_length (s : jsstring) : nat :=
  match s with
  | c :: r => if in_class c then O else S (run_length r)
  | [] => O
  end.

Definition non_alnum_run : matcher :=
  fun _ s => match run_length s with O => None | n => Some n end.

(** [/(^-|-$)+/]: one round of the group consumes one hyphen, which has to
    stand at the start of the subject ([^-]) or at its end ([-$]); the
    [+] repeats the group as long as it matches. *)
Definition edge_hyphen (at_start : bool) (s : jsstring) : bool :=
  match s with
  | c :: r => (c =? hyphen)%N && (at_start || is_nil r)
  | [] => false
  end.

Fixpoint edge_length (at_start : bool) (s : jsstring) : nat :=
  match s with
  | _ :: r => if edge_hyphen at_start s then S (edge_length false r) else O
  | [] => O
  end.

Definition edge_hyphens : matcher :=
  fun at_start s => match edge_length at_start s with O => None | n => Some n end.

Section Slug.

(** *** [String.prototype.toLowerCase]

    The lowercase mapping belongs to the JavaScript runtime.  On ASCII it is
    fixed: [A-Z] go to [a-z] and every other ASCII code unit stays.  What a
    code unit outside ASCII becomes is given by the Unicode tables, which
    are not part of the page; it is the parameter [lowerNonAscii], which
    gets the code units before, the code unit itself and the code units
    after (the mapping of a surrogate pair or of a final sigma depends on
    its neighbours) and gives the code units that stand for it in the
    result. *)

Variable lowerNonAscii : jsstring -> N -> jsstring -> jsstring.

Definition lower_unit (before : jsstring) (c : N) (after : jsstring) : jsstring :=
  if is_upper c then [(c + 32)%N]
  else if is_ascii c then [c]
  else lowerNonAscii before c after.

Fixpoint lower_from (before s : jsstring) : jsstring :=
  match s with
  | [] => []
  | c :: r => lower_unit before c r ++ lower_from (before ++ [c]) r
  end.

Definition toLowerCase (s : jsstring) : jsstring := lower_from [] s.

(** [const slugify = (value) => value.toLowerCase()
      .replace(/[^a-z0-9]+/g, "-").replace(/(^-|-$)+/g, "")] *)
Definition slugify (value : jsstring) : jsstring :=
  replaceAll edge_hyphens []
    (replaceAll non_alnum_run [hyphen] (toLowerCase value)).

End Slug.

(** A lowercase mapping that leaves every code unit outside ASCII as it is;
    used to run the page on concrete inputs. *)
Definition keepNonAscii : jsstring -> N -> jsstring -> jsstring :=
  fun _ c _ => [c].

(** ** The content model *)

Module CodeSample.
Record t := mk { caption : jsstring; content : jsstring }.
End CodeSample.

(** [notes?] and [code?] are optional properties: [None] is the property
    left out ([undefined]), [Some l] an array, which may be empty. *)
Module Subtopic.
Record t := mk {
  title : jsstring;
  summary : jsstring;
  notes : option (list jsstring);
  code : option (list CodeSample.t)
}.
End Subtopic.

Module Topic.
Record t := mk {
  title : jsstring;
  summary : jsstring;
  subtopics : list Subtopic.t
}.
End Topic.

(** ** Markup

    The tree [Home] returns, as React renders it: an element has a tag, its
    props and its children in document order; [className={styles.x}] is
    kept as the name [x] of the style it refers to.  A child expression
    that evaluates to [undefined] renders nothing and an array child
    renders its items in order. *)

Inductive Attr :=
| ClassName (style : string)
| Id (v : jsstring)
| Href (v : jsstring)
| Key (v : jsstring).

Inductive Node :=
| Text (s : jsstring)
| Element (tag : string) (attrs : list Attr) (children : list Node).

(** [{x && (<e/>)}] for an optional array [x]: [undefined] is falsy and the
    expression renders nothing; an array is an object, truthy also when it
    is empty, and the expression renders the element. *)
Definition when (A : Type) (x : option A) (e : A -> Node) : list Node :=
  match x with
  | Some a => [e a]
  | None => []
  end.

Section Renderer.

Variable lowerNonAscii : jsstring -> N -> jsstring -> jsstring.

Definition render_sample (subtopic : Subtopic.t) (sample : CodeSample.t) : Node :=
  Element "figure"
    [ClassName "codeSample";
     Key (Subtopic.title subtopic ++ lit "-" ++ CodeSample.caption sample)]
    [Element "figcaption" [] [Text (CodeSample.caption sample)];
     Element "pre" [] [Element "code" [] [Text (CodeSample.content sample)]]].

Definition render_subtopic (subtopic : Subtopic.t) : Node :=
  Element "section"
    [Key (Subtopic.title subtopic);
     Id (slugify lowerNonAscii (Subtopic.title subtopic));
     ClassName "subtopic"]
    ([Element "h3" [] [Text (Subtopic.title subtopic)];
      Element "p" [] [Text (Subtopic.summary subtopic)]]
     ++ when (Subtopic.notes subtopic) (fun notes =>
          Element "ul" [ClassName "notes"]
            (map (fun note => Element "li" [Key note] [Text note]) notes))
     ++ when (Subtopic.code subtopic) (fun code =>
          Element "div" [ClassName "codeGroup"]
            (map (render_sample subtopic) code))).

Definition render_topic (topic : Topic.t) : Node :=
  Element "article"
    [Key (Topic.title topic);
     Id (slugify lowerNonAscii (Topic.title topic));
     ClassName "topic"]
    [Element "h2" [] [Text (Topic.title topic)];
     Element "p" [ClassName "topicSummary"] [Text (Topic.summary topic)];
     Element "div" [ClassName "subtopics"]
       (map render_subtopic (Topic.subtopics topic))].

Definition render_nav_entry (topic : Topic.t) : Node :=
  Element "li" [Key (Topic.title topic)]
    [Element "a" [Href (lit "#" ++ slugify lowerNonAscii (Topic.title topic))]
       [Text (Topic.title topic)]].

(** The body of [Home], with the content model it reads as an argument. *)
Definition HomeOf (topics : list Topic.t) : Node :=
  Element "div" [ClassName "page"]
    [Element "main" [ClassName "main"]
       [Element "header" [ClassName "hero"]
          [Element "p" [ClassName "kicker"]
             [Text (lit "Mastering Core C Constructs")];
           Element "h1" []
             [Text (lit "Arrays in C " ++ [8212%N]
                    ++ lit " Comprehensive Notes & Examples")];
           Element "p" [ClassName "lede"]
             [Text (lit "A structured reference covering fundamentals, memory behavior, multi-dimensional arrays, pointer interplay, dynamic allocation, and best practices. Each topic includes concise explanations and runnable sample programs.")];
           Element "nav" [ClassName "toc"]
             [Element "p" [ClassName "tocHeading"]
                [Text (lit "Quick Navigation")];
              Element "ul" [] (map render_nav_entry topics)]];
        Element "section" [ClassName "topics"] (map render_topic topics);
        Element "footer" [ClassName "footer"]
          [Element "p" []
             [Text (lit "Need a printable copy? Export this page to PDF or integrate the code snippets into your favorite editor to compile and experiment.")]]]].

End Renderer.

(** ** The authored content: [const topics: Topic[]] *)

Definition topics : list Topic.t :=
  [
    Topic.mk
      (lit "1. Array Fundamentals")
      (lit "Understand what arrays are in C, how they behave in memory, and why they are foundational for systems programming.")
      [
        Subtopic.mk
          (lit "1.1 Definition and Characteristics")
          (lit "An array is a contiguous block of memory that stores elements of the same type. The array name often decays to a pointer to its first element, enabling pointer arithmetic.")
          (Some [
            lit "Arrays have a fixed size determined at compile time when declared with a constant expression length.";
            lit "Indexing starts at 0 and continues sequentially until size - 1.";
            lit "The compiler does not perform bounds checking, so accessing out-of-range indices causes undefined behavior."
          ])
          (Some [
            CodeSample.mk
              (lit "Visualizing Array Layout")
              (lit "#include <stdio.h>

int main(void) {
    int numbers[4] = {3, 6, 9, 12};

    printf(" ++ dquote ++ lit "numbers: %p\n" ++ dquote ++ lit ", (void *)numbers);
    for (int i = 0; i < 4; ++i) {
        printf(" ++ dquote ++ lit "numbers[%d] = %d at %p\n" ++ dquote ++ lit ", i, numbers[i], (void *)&numbers[i]);
    }

    return 0;
}")
          ]);
        Subtopic.mk
          (lit "1.2 Compile-Time vs. Run-Time Size")
          (lit "C requires the size of a standard array to be known at compile time, but C99 introduced Variable Length Arrays (VLAs) for stack allocation with run-time sizes.")
          (Some [
            lit "VLAs are optional in C11 and later; many compilers still support them, but portability may suffer.";
            lit "Stack size is limited; prefer dynamic allocation for large or unpredictable sizes."
          ])
          (Some [
            CodeSample.mk
              (lit "Variable Length Array (VLA) Example")
              (lit "#include <stdio.h>

void print_histogram(int count) {
    int bars[count]; // VLA: size determined at run time
    for (int i = 0; i < count; ++i) {
        bars[i] = i * i;
        printf(" ++ dquote ++ lit "%d " ++ dquote ++ lit ", bars[i]);
    }
    puts(" ++ dquote ++ dquote ++ lit "); // newline
}

int main(void) {
    print_histogram(5);
    return 0;
}")
          ])
      ];
    Topic.mk
      (lit "2. Declaring and Initializing Arrays")
      (lit "Explore the syntax for declaring arrays, partial initializations, designated initializers, and how the compiler fills remaining elements.")
      [
        Subtopic.mk
          (lit "2.1 Declaration Syntax")
          (lit "Array declarations specify the element type, the array name, and the number of elements enclosed in square brackets.")
          (Some [
            lit "`int scores[10];` declares space for ten `int` values initialized with indeterminate contents.";
            lit "You can declare and initialize simultaneously using curly braces."
          ])
          (Some [
            CodeSample.mk
              (lit "Basic Declarations")
              (lit "int primes[5];            // uninitialized
double temperature[365];   // element type double
char name[32] = " ++ dquote ++ lit "Ada" ++ dquote ++ lit ";      // initialized with string literal")
          ]);
        Subtopic.mk
          (lit "2.2 Initializer Lists")
          (lit "Initializer lists allow explicit values. Missing elements are zero-initialized when using static storage duration or explicit initializer braces.")
          (Some [
            lit "When the array size is omitted, the compiler infers it from the number of initializer elements.";
            lit "Designated initializers assign values to specific indices while leaving others zeroed."
          ])
          (Some [
            CodeSample.mk
              (lit "Inferred Length and Designated Initializers")
              (lit "#include <stdio.h>

int main(void) {
    int fibonacci[] = {0, 1, 1, 2, 3, 5, 8};
    int weekdays[7] = {[0] = 1, [6] = 7};

    printf(" ++ dquote ++ lit "fibonacci has %zu elements\n" ++ dquote ++ lit ", sizeof fibonacci / sizeof *fibonacci);
    for (size_t i = 0; i < 7; ++i) {
        printf(" ++ dquote ++ lit "weekdays[%zu] = %d\n" ++ dquote ++ lit ", i, weekdays[i]);
    }
    return 0;
}")
          ])
      ];
    Topic.mk
      (lit "3. Memory Layout and Indexing")
      (lit "Understand how arrays occupy contiguous memory, how `sizeof` works, and practical indexing techniques.")
      [
        Subtopic.mk
          (lit "3.1 Using sizeof Safely")
          (lit "`sizeof` helps compute array length within the same scope as the declaration. Passing arrays to functions removes size information.")
          (Some [
            lit "`sizeof array / sizeof array[0]` yields the number of elements when `array` is an actual array (not a pointer).";
            lit "Once an array decays to a pointer (e.g., when passed to a function), `sizeof` returns the pointer size instead."
          ])
          (Some [
            CodeSample.mk
              (lit "Length Calculation Macro")
              (lit "#include <stdio.h>

#define ARRAY_LEN(arr) ((int)(sizeof(arr) / sizeof((arr)[0])))

int main(void) {
    int data[] = {4, 8, 15, 16, 23, 42};
    printf(" ++ dquote ++ lit "Length = %d\n" ++ dquote ++ lit ", ARRAY_LEN(data));
    return 0;
}")
          ]);
        Subtopic.mk
          (lit "3.2 Bounds Awareness")
          (lit "Because C lacks bounds checking, explicit guards are essential to prevent buffer overruns and undefined behavior.")
          (Some [
            lit "Always validate indices before use, especially when data originates from user input or external sources.";
            lit "Prefer iterating with unsigned types like `size_t` when dealing with sizes to avoid negative indices."
          ])
          (Some [
            CodeSample.mk
              (lit "Safe Indexing Wrapper")
              (lit "#include <stdbool.h>
#include <stdio.h>

bool array_get(const int *arr, size_t length, size_t index, int *out_value) {
    if (index >= length) {
        return false;
    }
    *out_value = arr[index];
    return true;
}

int main(void) {
    int values[] = {10, 20, 30, 40};
    int result;

    if (array_get(values, 4, 2, &result)) {
        printf(" ++ dquote ++ lit "values[2] = %d\n" ++ dquote ++ lit ", result);
    } else {
        puts(" ++ dquote ++ lit "Index out of range" ++ dquote ++ lit ");
    }
    return 0;
}")
          ])
      ];
    Topic.mk
      (lit "4. Core Operations")
      (lit "Implement traversal, searching, inserting, and deleting elements using manual loops because arrays have fixed length.")
      [
        Subtopic.mk
          (lit "4.1 Traversal and Aggregation")
          (lit "Use loop constructs to process every element. Aggregations like sum or average require iterating over the complete array.")
          (Some [
            lit "Prefer `size_t` for loop counters to match the type returned by `sizeof` computations.";
            lit "Do not assume arrays are null-terminated unless they represent C strings."
          ])
          (Some [
            CodeSample.mk
              (lit "Sum and Average")
              (lit "#include <stdio.h>

double average(const double *values, size_t length) {
    double total = 0.0;
    for (size_t i = 0; i < length; ++i) {
        total += values[i];
    }
    return length ? total / length : 0.0;
}

int main(void) {
    double samples[] = {2.5, 4.0, 3.5, 1.0};
    printf(" ++ dquote ++ lit "Average = %.2f\n" ++ dquote ++ lit ", average(samples, sizeof samples / sizeof *samples));
    return 0;
}")
          ]);
        Subtopic.mk
          (lit "4.2 Searching")
          (lit "Linear search is straightforward. Binary search reduces complexity for sorted arrays but requires manual implementation or `<stdlib.h>` utilities.")
          (Some [
            lit "Return sentinel values (e.g., `-1`) or use `bool` outs to signal success.";
            lit "Remember to validate sorted preconditions when using binary search."
          ])
          (Some [
            CodeSample.mk
              (lit "Linear Search Returning Index")
              (lit "#include <stdio.h>

int find_index(const int *arr, size_t length, int target) {
    for (size_t i = 0; i < length; ++i) {
        if (arr[i] == target) {
            return (int)i;
        }
    }
    return -1;
}

int main(void) {
    int arr[] = {7, 2, 9, 4, 6};
    int index = find_index(arr, sizeof arr / sizeof *arr, 4);
    printf(" ++ dquote ++ lit "index = %d\n" ++ dquote ++ lit ", index);
    return 0;
}")
          ]);
        Subtopic.mk
          (lit "4.3 Insertion and Deletion")
          (lit "Because arrays are fixed-size, insertion and deletion involve shifting elements. Track the logical length separately from capacity.")
          (Some [
            lit "Always check that there is capacity before inserting.";
            lit "When deleting, shift elements left and optionally zero the vacated slot for clarity."
          ])
          (Some [
            CodeSample.mk
              (lit "Manual Insert With Capacity Tracking")
              (lit "#include <stdio.h>
#include <stdbool.h>

#define CAPACITY 8

bool insert_at(int arr[], size_t *length, int value, size_t pos) {
    if (*length >= CAPACITY || pos > *length) {
        return false;
    }
    for (size_t i = *length; i > pos; --i) {
        arr[i] = arr[i - 1];
    }
    arr[pos] = value;
    (*length)++;
    return true;
}

int main(void) {
    int buffer[CAPACITY] = {1, 3, 5, 7, 9};
    size_t length = 5;

    insert_at(buffer, &length, 11, 2);

    for (size_t i = 0; i < length; ++i) {
        printf(" ++ dquote ++ lit "%d " ++ dquote ++ lit ", buffer[i]);
    }
    puts(" ++ dquote ++ dquote ++ lit ");
    return 0;
}")
          ])
      ];
    Topic.mk
      (lit "5. Multidimensional Arrays")
      (lit "C stores multidimensional arrays in row-major order. Subscripting cascades to access elements in nested arrays.")
      [
        Subtopic.mk
          (lit "5.1 Declaration and Initialization")
          (lit "Each dimension size except the first must be specified when passing to functions. Initialization can flatten or nest braces.")
          (Some [
            lit "`int matrix[2][3]` allocates 2 rows with 3 columns each.";
            lit "Nested initializers clarify row boundaries and reduce mistakes."
          ])
          (Some [
            CodeSample.mk
              (lit "2D Array Initialization")
              (lit "#include <stdio.h>

int main(void) {
    int matrix[2][3] = {
        {1, 2, 3},
        {4, 5, 6}
    };

    for (size_t row = 0; row < 2; ++row) {
        for (size_t col = 0; col < 3; ++col) {
            printf(" ++ dquote ++ lit "%d " ++ dquote ++ lit ", matrix[row][col]);
        }
        puts(" ++ dquote ++ dquote ++ lit ");
    }
    return 0;
}")
          ]);
        Subtopic.mk
          (lit "5.2 Passing Multidimensional Arrays")
          (lit "When passing to functions, all but the first dimension must be fixed so the compiler can compute row offsets.")
          (Some [
            lit "Use macros or `const` parameters to make dimensions explicit and maintain readability.";
            lit "Pointer syntax such as `int (*matrix)[3]` declares a pointer to an array of 3 integers."
          ])
          (Some [
            CodeSample.mk
              (lit "Function Receiving 2D Array")
              (lit "#include <stdio.h>

void print_board(size_t rows, size_t cols, const int board[rows][cols]) {
    for (size_t r = 0; r < rows; ++r) {
        for (size_t c = 0; c < cols; ++c) {
            printf(" ++ dquote ++ lit "%d " ++ dquote ++ lit ", board[r][c]);
        }
        puts(" ++ dquote ++ dquote ++ lit ");
    }
}

int main(void) {
    int board[3][3] = {
        {0, 1, 0},
        {1, 0, 1},
        {0, 1, 0}
    };
    print_board(3, 3, board);
    return 0;
}")
          ])
      ];
    Topic.mk
      (lit "6. Arrays and Pointers")
      (lit "Array names often decay to pointers, but arrays and pointers are not interchangeable. Understanding differences avoids subtle bugs.")
      [
        Subtopic.mk
          (lit "6.1 Decay and Differences")
          (lit "An array's name converts to a pointer to its first element in most expressions, yet `sizeof` and address-of behave differently.")
          (Some [
            lit "`sizeof array` yields the entire array size, while `sizeof pointer` gives pointer size.";
            lit "`&array` has type pointer to array, distinct from pointer to first element."
          ])
          (Some [
            CodeSample.mk
              (lit "Pointer vs. Array Demonstration")
              (lit "#include <stdio.h>

int main(void) {
    int data[3] = {10, 20, 30};
    int *ptr = data;        // decay to pointer

    printf(" ++ dquote ++ lit "sizeof data = %zu\n" ++ dquote ++ lit ", sizeof data);
    printf(" ++ dquote ++ lit "sizeof ptr = %zu\n" ++ dquote ++ lit ", sizeof ptr);
    printf(" ++ dquote ++ lit "data address = %p\n" ++ dquote ++ lit ", (void *)data);
    printf(" ++ dquote ++ lit "&data address = %p\n" ++ dquote ++ lit ", (void *)&data);
    printf(" ++ dquote ++ lit "ptr address = %p\n" ++ dquote ++ lit ", (void *)ptr);
    return 0;
}")
          ]);
        Subtopic.mk
          (lit "6.2 Pointer Arithmetic")
          (lit "Pointer arithmetic respects element size. Incrementing a pointer moves it by the size of the pointed-to type.")
          (Some [
            lit "Never increment past the array's end; keep sentinel pointers to `arr + length` as bounds.";
            lit "Pointer subtraction yields the number of elements between two pointers within the same array."
          ])
          (Some [
            CodeSample.mk
              (lit "Iterating with Pointers")
              (lit "#include <stdio.h>

void print_with_pointers(const int *begin, const int *end) {
    for (const int *it = begin; it < end; ++it) {
        printf(" ++ dquote ++ lit "%d " ++ dquote ++ lit ", *it);
    }
    puts(" ++ dquote ++ dquote ++ lit ");
}

int main(void) {
    int numbers[] = {2, 4, 6, 8, 10};
    print_with_pointers(numbers, numbers + (sizeof numbers / sizeof *numbers));
    return 0;
}")
          ])
      ];
    Topic.mk
      (lit "7. Strings as Character Arrays")
      (lit "C strings are arrays of `char` terminated by a null character (`'\0'`). Handling them safely requires length checks.")
      [
        Subtopic.mk
          (lit "7.1 Initialization and Literals")
          (lit "String literals automatically append the null terminator. Ensure arrays have space for it when specifying fixed sizes.")
          (Some [
            lit "`char word[] = " ++ dquote ++ lit "C" ++ dquote ++ lit ";` creates a 2-element array: `{'C', '\0'}`.";
            lit "When copying strings, use functions that limit writes, such as `snprintf` or `strncpy` (with manual terminator)."
          ])
          (Some [
            CodeSample.mk
              (lit "Safe String Copy Utility")
              (lit "#include <stdio.h>
#include <string.h>

void copy_label(char *dest, size_t dest_size, const char *source) {
    if (dest_size == 0) {
        return;
    }
    snprintf(dest, dest_size, " ++ dquote ++ lit "%s" ++ dquote ++ lit ", source);
}

int main(void) {
    char label[8];
    copy_label(label, sizeof label, " ++ dquote ++ lit "Arrays" ++ dquote ++ lit ");
    printf(" ++ dquote ++ lit "label = %s\n" ++ dquote ++ lit ", label);
    return 0;
}")
          ]);
        Subtopic.mk
          (lit "7.2 Iterating Over Strings")
          (lit "Terminate loops when the null character is encountered. Avoid overrunning buffers by checking maximum length.")
          (Some [
            lit "Use `size_t` counters and guard conditions to prevent reading beyond the buffer.";
            lit "For embedded nulls, treat data as raw arrays rather than C strings."
          ])
          (Some [
            CodeSample.mk
              (lit "Manual strlen Implementation")
              (lit "#include <stdio.h>

size_t my_strlen(const char *s) {
    const char *p = s;
    while (*p) {
        ++p;
    }
    return (size_t)(p - s);
}

int main(void) {
    const char message[] = " ++ dquote ++ lit "Array Notes" ++ dquote ++ lit ";
    printf(" ++ dquote ++ lit "Length = %zu\n" ++ dquote ++ lit ", my_strlen(message));
    return 0;
}")
          ])
      ];
    Topic.mk
      (lit "8. Dynamic Arrays")
      (lit "Use dynamic allocation for arrays whose size is known only at run time or exceeds stack limits.")
      [
        Subtopic.mk
          (lit "8.1 malloc, calloc, and realloc")
          (lit "`malloc` allocates uninitialized memory, `calloc` zeroes it, and `realloc` resizes while preserving contents when possible.")
          (Some [
            lit "Always check allocation results against `NULL` before dereferencing.";
            lit "Pair each successful allocation with `free` to avoid memory leaks."
          ])
          (Some [
            CodeSample.mk
              (lit "Resizable Dynamic Array")
              (lit "#include <stdio.h>
#include <stdlib.h>

typedef struct {
    int *data;
    size_t length;
    size_t capacity;
} IntVector;

int vector_push(IntVector *vec, int value) {
    if (vec->length == vec->capacity) {
        size_t new_capacity = vec->capacity ? vec->capacity * 2 : 4;
        int *new_data = realloc(vec->data, new_capacity * sizeof *new_data);
        if (!new_data) {
            return -1;
        }
        vec->data = new_data;
        vec->capacity = new_capacity;
    }
    vec->data[vec->length++] = value;
    return 0;
}

void vector_free(IntVector *vec) {
    free(vec->data);
    vec->data = NULL;
    vec->length = vec->capacity = 0;
}

int main(void) {
    IntVector vec = {0};
    for (int i = 0; i < 10; ++i) {
        if (vector_push(&vec, i * i) != 0) {
            fprintf(stderr, " ++ dquote ++ lit "Allocation failure\n" ++ dquote ++ lit ");
            vector_free(&vec);
            return 1;
        }
    }
    for (size_t i = 0; i < vec.length; ++i) {
        printf(" ++ dquote ++ lit "%d " ++ dquote ++ lit ", vec.data[i]);
    }
    puts(" ++ dquote ++ dquote ++ lit ");
    vector_free(&vec);
    return 0;
}")
          ]);
        Subtopic.mk
          (lit "8.2 Flexible Array Members")
          (lit "A flexible array member is a struct's last element declared with empty brackets, enabling variable-sized trailing storage.")
          (Some [
            lit "Allocate memory with `sizeof(struct) + element_count * sizeof(type)`.";
            lit "Commonly used for packet parsing or compound objects that combine metadata with data payloads."
          ])
          (Some [
            CodeSample.mk
              (lit "Flexible Array Member Pattern")
              (lit "#include <stdio.h>
#include <stdlib.h>
#include <string.h>

typedef struct {
    size_t length;
    char text[];
} StringBlob;

StringBlob *stringblob_create(const char *source) {
    size_t len = strlen(source);
    StringBlob *blob = malloc(sizeof *blob + (len + 1) * sizeof(char));
    if (!blob) {
        return NULL;
    }
    blob->length = len;
    memcpy(blob->text, source, len + 1);
    return blob;
}

int main(void) {
    StringBlob *blob = stringblob_create(" ++ dquote ++ lit "Contiguous arrays rock!" ++ dquote ++ lit ");
    if (!blob) {
        return 1;
    }
    printf(" ++ dquote ++ lit "Stored: %s (%zu chars)\n" ++ dquote ++ lit ", blob->text, blob->length);
    free(blob);
    return 0;
}")
          ])
      ];
    Topic.mk
      (lit "9. Arrays and Functions")
      (lit "Passing arrays to functions requires explicit size communication. `const` qualifiers document intent and enable more optimizations.")
      [
        Subtopic.mk
          (lit "9.1 Function Parameters")
          (lit "Declaring parameters as `int arr[]`, `int arr[static N]`, or `int *arr` are equivalent, but qualifiers like `static` can instruct the compiler about minimum size.")
          (Some [
            lit "`static` in parameter declarations indicates that the pointer argument must address at least the specified number of elements.";
            lit "Use `restrict` in C99+ when pointers refer to non-overlapping objects to help vectorization."
          ])
          (Some [
            CodeSample.mk
              (lit "Using static in Parameters")
              (lit "#include <stddef.h>
#include <stdio.h>

void normalize(double values[static 4], size_t length) {
    double max = 0.0;
    for (size_t i = 0; i < length; ++i) {
        if (values[i] > max) {
            max = values[i];
        }
    }
    if (max == 0.0) {
        return;
    }
    for (size_t i = 0; i < length; ++i) {
        values[i] /= max;
    }
}

int main(void) {
    double metrics[] = {4.0, 8.0, 2.0, 6.0};
    normalize(metrics, sizeof metrics / sizeof *metrics);
    for (size_t i = 0; i < sizeof metrics / sizeof *metrics; ++i) {
        printf(" ++ dquote ++ lit "%.2f " ++ dquote ++ lit ", metrics[i]);
    }
    puts(" ++ dquote ++ dquote ++ lit ");
    return 0;
}")
          ]);
        Subtopic.mk
          (lit "9.2 Returning Arrays")
          (lit "Functions cannot return arrays directly, but you can return pointers to static storage, dynamically allocated memory, or wrap arrays in structs.")
          (Some [
            lit "Returning pointers to local arrays is undefined because the storage ceases to exist after the function exits.";
            lit "Struct wrappers provide value semantics and can be copied or returned safely."
          ])
          (Some [
            CodeSample.mk
              (lit "Struct Wrapper Return")
              (lit "#include <stdio.h>

typedef struct {
    double values[3];
} Triple;

Triple make_unit_vector(void) {
    Triple t = {{1.0, 0.0, 0.0}};
    return t;
}

int main(void) {
    Triple x = make_unit_vector();
    printf(" ++ dquote ++ lit "(%.1f, %.1f, %.1f)\n" ++ dquote ++ lit ", x.values[0], x.values[1], x.values[2]);
    return 0;
}")
          ])
      ];
    Topic.mk
      (lit "10. Best Practices and Common Pitfalls")
      (lit "Finish with patterns and guidelines to write safer, more maintainable code when working with arrays in C.")
      [
        Subtopic.mk
          (lit "10.1 Best Practices Checklist")
          (lit "Apply these heuristics to make array usage more robust, self-documenting, and efficient.")
          (Some [
            lit "Encapsulate array logic in helper functions that take lengths explicitly.";
            lit "Favor `const` where possible to signal read-only intent.";
            lit "Use enums or macros to centralize array sizes and prevent mismatches.";
            lit "Prefer standard library algorithms (`qsort`, `bsearch`) when they fit the task."
          ])
          None;
        Subtopic.mk
          (lit "10.2 Common Mistakes to Avoid")
          (lit "Recognize recurring pitfalls and undefined behaviors associated with array misuse.")
          (Some [
            lit "Do not return pointers to stack-allocated arrays.";
            lit "Avoid mixing pointer arithmetic with incorrect units (e.g., adding bytes instead of elements).";
            lit "Beware of off-by-one errors when iterating over indices; always double-check loop bounds.";
            lit "Remember to allocate space for the null terminator when working with strings."
          ])
          (Some [
            CodeSample.mk
              (lit "Off-by-One Bug and Fix")
              (lit "#include <stdio.h>

int main(void) {
    int data[5] = {1, 2, 3, 4, 5};

    // Buggy: writes past the end when i == 5
    for (size_t i = 0; i <= 5; ++i) {
        data[i] = 0; // Undefined behavior when i == 5
    }

    // Fixed loop
    for (size_t i = 0; i < 5; ++i) {
        data[i] = 0;
    }

    for (size_t i = 0; i < 5; ++i) {
        printf(" ++ dquote ++ lit "%d " ++ dquote ++ lit ", data[i]);
    }
    puts(" ++ dquote ++ dquote ++ lit ");
    return 0;
}")
          ])
      ]
  ].

(** [export default function Home()] *)
Definition Home (lowerNonAscii : jsstring -> N -> jsstring -> jsstring) : Node :=
  HomeOf lowerNonAscii topics.

(** ** The slug algorithm as its specification words it

    (a) lowercase the entire string; (b) replace every maximal run of
    one or more characters outside [a-z0-9] with a single hyphen; (c) strip
    a leading hyphen if present; (d) strip a trailing hyphen if present. *)

Module Reference.

(** The maximal runs of a string: consecutive code units that are all in
    the class or all outside it, each run with its side. *)
Fixpoint runs (s : jsstring) : list (bool * jsstring) :=
  match s with
  | [] => []
  | c :: r =>
      match runs r with
      | (b, g) :: gs =>
          if Bool.eqb (in_class c) b then (b, c :: g) :: gs
          else (in_class c, [c]) :: (b, g) :: gs
      | [] => [(in_class c, [c])]
      end
  end.

(** Two runs in a row lie on different sides of the class. *)
Fixpoint alternate (l : list (bool * jsstring)) : Prop :=
  match l with
  | run :: (next :: _) as tl => fst run <> fst next /\ alternate tl
  | _ => True
  end.

Definition hyphenate (run : bool * jsstring) : jsstring :=
  if fst run then snd run else [hyphen].

Definition replace_runs (s : jsstring) : jsstring :=
  flat_map hyphenate (runs s).

Definition strip_leading (s : jsstring) : jsstring :=
  match s with
  | c :: r => if (c =? hyphen)%N then r else s
  | [] => []
  end.

Definition strip_trailing (s : jsstring) : jsstring :=
  rev (strip_leading (rev s)).

Definition slugify (lowerNonAscii : jsstring -> N -> jsstring -> jsstring)
    (s : jsstring) : jsstring :=
  strip_trailing (strip_leading (replace_runs (toLowerCase lowerNonAscii s))).

End Reference.

(** ** The shape of a slug *)

(** Regular expressions over code units, and the strings they match as a
    whole (the pattern of the specification is anchored at both ends). *)
Inductive regex :=
| Class (p : N -> bool)
| Chr (c : N)
| Seq (r1 r2 : regex)
| Star (r : regex).

Definition Plus (r : regex) : regex := Seq r (Star r).

Inductive Matches : regex -> jsstring -> Prop :=
| MClass p c : p c = true -> Matches (Class p) [c]
| MChr c : Matches (Chr c) [c]
| MSeq r1 r2 s1 s2 :
    Matches r1 s1 -> Matches r2 s2 -> Matches (Seq r1 r2) (s1 ++ s2)
| MStarNil r : Matches (Star r) []
| MStarApp r s1 s2 :
    Matches r s1 -> Matches (Star r) s2 -> Matches (Star r) (s1 ++ s2).

(** [^[a-z0-9]+(-[a-z0-9]+)*$] *)
Definition slug_pattern : regex :=
  Seq (Plus (Class in_class))
      (Star (Seq (Chr hyphen) (Plus (Class in_class)))).

(** Its repeated part, [(-[a-z0-9]+)*]. *)
Definition slug_groups : regex :=
  Star (Seq (Chr hyphen) (Plus (Class in_class))).

(** The same pattern as a scan: [after_alnum] tells whether the code unit
    before the current one was in the class (a hyphen may only follow such
    a unit, and the string may only end after one). *)
Fixpoint slug_scan (after_alnum : bool) (s : jsstring) : bool :=
  match s with
  | [] => after_alnum
  | c :: r =>
      if in_class c then slug_scan true r
      else (c =? hyphen)%N && after_alnum && slug_scan false r
  end.

Definition is_slug (s : jsstring) : bool := slug_scan false s.

Definition slug_unit (c : N) : bool := in_class c || (c =? hyphen)%N.

Definition starts_with_hyphen (s : jsstring) : bool :=
  match s with
  | c :: _ => (c =? hyphen)%N
  | [] => false
  end.

Definition ends_with_hyphen (s : jsstring) : bool :=
  starts_with_hyphen (rev s).

Fixpoint has_double_hyphen (s : jsstring) : bool :=
  match s with
  | c :: r => ((c =? hyphen)%N && starts_with_hyphen r) || has_double_hyphen r
  | [] => false
  end.

(** Some code unit of the string lowercases into the class [a-z0-9]. *)
Fixpoint has_alnum_from (lowerNonAscii : jsstring -> N -> jsstring -> jsstring)
    (before s : jsstring) : bool :=
  match s with
  | [] => false
  | c :: r =>
      existsb in_class (lower_unit lowerNonAscii before c r)
      || has_alnum_from lowerNonAscii (before ++ [c]) r
  end.

Definition has_alnum (lowerNonAscii : jsstring -> N -> jsstring -> jsstring)
    (s : jsstring) : bool :=
  has_alnum_from lowerNonAscii [] s.

(** The two replacements of [slugify]. *)
Abbreviation collapse := (replaceAll non_alnum_run [hyphen]).
Abbreviation trim := (replaceAll edge_hyphens []).

(** What the second replacement does away from the start of the subject
    (only [-$] can match there): a hyphen that is the last code unit goes. *)
Fixpoint drop_last_hyphen (s : jsstring) : jsstring :=
  match s with
  | [] => []
  | c :: r => if (c =? hyphen)%N && is_nil r then [] else c :: drop_last_hyphen r
  end.

(** What the first replacement leaves: code units of the class and single
    hyphens.  [after_hyphen] tells whether the code unit before the current
    one was a hyphen. *)
Fixpoint collapsed_scan (after_hyphen : bool) (s : jsstring) : bool :=
  match s with
  | [] => true
  | c :: r =>
      if in_class c then collapsed_scan false r
      else (c =? hyphen)%N && negb after_hyphen && collapsed_scan true r
  end.

(** ** Reading the rendered tree *)

(** A node and its descendants, in document order. *)
Fixpoint nodes (n : Node) : list Node :=
  n :: match n with
       | Text _ => []
       | Element _ _ children => flat_map nodes children
       end.

(** The nodes of a tree that satisfy [p], in document order (what
    [querySelectorAll] gives for a selector). *)
Definition select (p : Node -> bool) (n : Node) : list Node :=
  filter p (nodes n).

Definition has_tag (tag : string) (n : Node) : bool :=
  match n with
  | Element tag' _ _ => String.eqb tag tag'
  | Text _ => false
  end.

Definition is_class (style : string) (a : Attr) : bool :=
  match a with
  | ClassName style' => String.eqb style style'
  | _ => false
  end.

Definition has_class (style : string) (n : Node) : bool :=
  match n with
  | Element _ attrs _ => existsb (is_class style) attrs
  | Text _ => false
  end.

Definition children_of (n : Node) : list Node :=
  match n with
  | Element _ _ children => children
  | Text _ => []
  end.

Definition attr_id (a : Attr) : option jsstring :=
  match a with Id v => Some v | _ => None end.

Definition attr_href (a : Attr) : option jsstring :=
  match a with Href v => Some v | _ => None end.

Fixpoint first_attr (get : Attr -> option jsstring) (attrs : list Attr)
    : option jsstring :=
  match attrs with
  | [] => None
  | a :: rest =>
      match get a with
      | Some v => Some v
      | None => first_attr get rest
      end
  end.

(** The [id] and the [href] of an element, when it has one. *)
Definition id_of (n : Node) : option jsstring :=
  match n with
  | Element _ attrs _ => first_attr attr_id attrs
  | Text _ => None
  end.

Definition href_of (n : Node) : option jsstring :=
  match n with
  | Element _ attrs _ => first_attr attr_href attrs
  | Text _ => None
  end.

(** The text of a node ([textContent]). *)
Fixpoint text_of (n : Node) : jsstring :=
  match n with
  | Text s => s
  | Element _ _ children => flat_map text_of children
  end.

(** The notes and the code samples a subtopic has: none when the property
    is left out. *)
Definition notes_of (subtopic : Subtopic.t) : list jsstring :=
  match Subtopic.notes subtopic with Some l => l | None => [] end.

Definition samples_of (subtopic : Subtopic.t) : list CodeSample.t :=
  match Subtopic.code subtopic with Some l => l | None => [] end.

(** Every title of a content model, in document order. *)
Definition titles_of (content : list Topic.t) : list jsstring :=
  flat_map (fun topic =>
              Topic.title topic :: map Subtopic.title (Topic.subtopics topic))
           content.

Fixpoint jsstring_eqb (s t : jsstring) : bool :=
  match s, t with
  | [], [] => true
  | c :: s', d :: t' => (c =? d)%N && jsstring_eqb s' t'
  | _, _ => false
  end.

Fixpoint distinct (l : list jsstring) : bool :=
  match l with
  | [] => true
  | s :: rest => negb (existsb (jsstring_eqb s) rest) && distinct rest
  end.

(** *** What the page shows, read back from the tree *)

(** The entries of the navigation list, and the links of an entry: target
    and label. *)
Definition nav_entries (page : Node) : list Node :=
  flat_map (select (has_tag "li")) (select (has_tag "nav") page).

Definition links_of (entry : Node) : list (option jsstring * jsstring) :=
  map (fun a => (href_of a, text_of a)) (select (has_tag "a") entry).

Definition topic_sections (n : Node) : list Node := select (has_class "topic") n.

Definition subtopic_sections (n : Node) : list Node :=
  select (has_class "subtopic") n.

Definition note_lists (n : Node) : list Node := select (has_class "notes") n.

Definition note_items (n : Node) : list Node :=
  flat_map (select (has_tag "li")) (note_lists n).

Definition code_groups (n : Node) : list Node := select (has_class "codeGroup") n.

Definition code_figures (n : Node) : list Node :=
  flat_map (select (has_tag "figure")) (code_groups n).

Definition headings (tag : string) (n : Node) : list jsstring :=
  map text_of (select (has_tag tag) n).

(** Caption and content of a figure, as the texts of its [figcaption] and
    of its [code] element. *)
Definition sample_view (figure : Node) : list jsstring * list jsstring :=
  (headings "figcaption" figure, headings "code" figure).

(** A subtopic section: anchor, heading, notes and samples; a topic
    section: anchor, heading and subtopic sections; all in document order. *)
Definition subtopic_outline (section : Node) :=
  (id_of section, headings "h3" section,
   map text_of (note_items section), map sample_view (code_figures section)).

Definition topic_outline (article : Node) :=
  (id_of article, headings "h2" article,
   map subtopic_outline (subtopic_sections article)).

Definition page_outline (page : Node) := map topic_outline (topic_sections page).

(** The same outline, read from the content model. *)
Definition authored_sample (sample : CodeSample.t) : list jsstring * list jsstring :=
  ([CodeSample.caption sample], [CodeSample.content sample]).

Definition authored_subtopic (lowerNonAscii : jsstring -> N -> jsstring -> jsstring)
    (subtopic : Subtopic.t) :=
  (Some (slugify lowerNonAscii (Subtopic.title subtopic)),
   [Subtopic.title subtopic],
   notes_of subtopic,
   map authored_sample (samples_of subtopic)).

Definition authored_topic (lowerNonAscii : jsstring -> N -> jsstring -> jsstring)
    (topic : Topic.t) :=
  (Some (slugify lowerNonAscii (Topic.title topic)),
   [Topic.title topic],
   map (authored_subtopic lowerNonAscii) (Topic.subtopics topic)).

(** The children [render_sample] gives a figure: the caption and the
    content as text nodes, as authored. *)
Definition sample_children (sample : CodeSample.t) : list Node :=
  [Element "figcaption" [] [Text (CodeSample.caption sample)];
   Element "pre" [] [Element "code" [] [Text (CodeSample.content sample)]]].

(** Every code sample of a content model, in document order. *)
Definition samples_in (content : list Topic.t) : list CodeSample.t :=
  flat_map (fun topic => flat_map samples_of (Topic.subtopics topic)) content.

(** The reading of "omitted entirely if the subtopic has no notes / if
    none" that counts an empty list as none: a subtopic without a note has
    no notes list in its section, one without a code sample no code group. *)
Definition omits_empty_groups
    (lowerNonAscii : jsstring -> N -> jsstring -> jsstring)
    (subtopic : Subtopic.t) : Prop :=
  (notes_of subtopic = [] ->
   note_lists (render_subtopic lowerNonAscii subtopic) = [])
  /\ (samples_of subtopic = [] ->
      code_groups (render_subtopic lowerNonAscii subtopic) = []).

(** A lowercase mapping that knows one code unit outside ASCII: the Kelvin
    sign U+212A, whose lowercase is the letter [k]. *)
Definition kelvinLower : jsstring -> N -> jsstring -> jsstring :=
  fun _ c _ => if (c =? 8490)%N then [107%N] else [c].

(** A subtopic with an empty [code] list and no [notes] property. *)
Definition empty_code_subtopic : Subtopic.t :=
  Subtopic.mk (lit "10.1 Best Practices Checklist")
    (lit "Apply these heuristics.") None (Some []).

(** ** Words of a string

    The maximal runs of code units of the class [a-z0-9], in order, and
    what [Array.prototype.join] gives for them with a hyphen between. *)

Definition starts_in_class (s : jsstring) : bool :=
  match s with
  | c :: _ => in_class c
  | [] => false
  end.

Fixpoint words (s : jsstring) : list jsstring :=
  match s with
  | [] => []
  | c :: r =>
      if in_class c then
        if starts_in_class r then
          match words r with
          | w :: ws => (c :: w) :: ws
          | [] => [[c]]
          end
        else [c] :: words r
      else words r
  end.

Fixpoint join_hyphen (ws : list jsstring) : jsstring :=
  match ws with
  | [] => []
  | w :: rest =>
      match rest with
      | [] => w
      | _ :: _ => w ++ hyphen :: join_hyphen rest
      end
  end.

(** Two slugs put together: a hyphen between them when neither is empty. *)
Definition glue (x y : jsstring) : jsstring :=
  if is_nil x then y else if is_nil y then x else x ++ hyphen :: y.

(** An ASCII code unit that is neither a letter nor a digit. *)
Definition is_separator (c : N) : bool :=
  is_ascii c && negb (in_class c) && negb (is_upper c).

(** [toLowerCase] on one ASCII code unit. *)
Definition lower_ascii (c : N) : N := if is_upper c then (c + 32)%N else c.

(** The hyphen the first replacement leaves before the first word when the
    string starts outside the class. *)
Definition lead (s : jsstring) : jsstring :=
  if negb (starts_in_class s) && negb (is_nil (words s)) then [hyphen] else [].

(** ** Anchors and keys of the rendered tree *)

Definition has_id (n : Node) : bool :=
  match id_of n with
  | Some _ => true
  | None => false
  end.

(** The element a fragment [#v] points to: one whose [id] is [v]. *)
Definition has_id_eq (v : jsstring) (n : Node) : bool :=
  match id_of n with
  | Some v' => jsstring_eqb v v'
  | None => false
  end.

Definition attr_key (a : Attr) : option jsstring :=
  match a with Key v => Some v | _ => None end.

Definition key_of (n : Node) : option jsstring :=
  match n with
  | Element _ attrs _ => first_attr attr_key attrs
  | Text _ => None
  end.

(** The keys of the children of a node that have one. *)
Definition child_keys (n : Node) : list jsstring :=
  flat_map (fun child => match key_of child with Some k => [k] | None => [] end)
           (children_of n).

(** What React asks of keys: among the children of one element no key
    occurs twice. *)
Definition keys_ok (n : Node) : bool :=
  forallb (fun m => distinct (child_keys m)) (nodes n).

(** The same, read from the content model: topic titles are distinct, and
    so are the subtopic titles of one topic and the notes and the captions
    of one subtopic. *)
Definition subtopic_keyed (subtopic : Subtopic.t) : bool :=
  distinct (notes_of subtopic)
  && distinct (map CodeSample.caption (samples_of subtopic)).

Definition topic_keyed (topic : Topic.t) : bool :=
  distinct (map Subtopic.title (Topic.subtopics topic))
  && forallb subtopic_keyed (Topic.subtopics topic).

Definition well_keyed (content : list Topic.t) : bool :=
  distinct (map Topic.title content) && forallb topic_keyed content.

(** * Properties *)

(** ** The two replacements of [slugify] *)

Lemma in_class_not_hyphen c : in_class c = true -> (c =? hyphen)%N = false.
Proof.
  unfold in_class, hyphen. intros H. apply N.eqb_neq. intros ->. discriminate H.
Qed.

Lemma in_class_not_upper c : in_class c = true -> is_upper c = false.
Proof.
  unfold in_class, is_upper. intros H.
  apply orb_true_iff in H. rewrite !andb_true_iff, !N.leb_le in H.
  apply andb_false_iff. rewrite !N.leb_gt. lia.
Qed.

Lemma in_class_ascii c : in_class c = true -> is_ascii c = true.
Proof.
  unfold in_class, is_ascii. intros H.
  apply orb_true_iff in H. rewrite !andb_true_iff, !N.leb_le in H.
  apply N.ltb_lt. lia.
Qed.

(** The expression [/[^a-z0-9]+/] has no anchor: where the scan stands does
    not matter. *)
Lemma collapse_from_any b s :
  replace_from non_alnum_run [hyphen] b 0 s = collapse s.
Proof. destruct s; reflexivity. Qed.

(** One step of the first replacement, by the first code units. *)
Lemma collapse_cons c r :
  collapse (c :: r) =
  if in_class c then c :: collapse r
  else match r with
       | d :: _ => if in_class d then hyphen :: collapse r else collapse r
       | [] => [hyphen]
       end.
Proof.
  unfold replaceAll. cbn [replace_from]. unfold non_alnum_run.
  cbn [run_length]. destruct (in_class c) eqn:Hc.
  - now rewrite collapse_from_any.
  - destruct r as [|d r']; [reflexivity|].
    cbn [run_length replace_from app]. unfold non_alnum_run. cbn [run_length].
    destruct (in_class d) eqn:Hd; cbn [replace_from app].
    + reflexivity.
    + reflexivity.
Qed.

Lemma collapse_nil : collapse [] = [].
Proof. reflexivity. Qed.


Lemma edge_hyphens_inner c r :
  edge_hyphens false (c :: r) =
  if (c =? hyphen)%N && is_nil r then Some 1 else None.
Proof.
  unfold edge_hyphens. cbn [edge_length edge_hyphen orb].
  destruct ((c =? hyphen)%N && is_nil r) eqn:E; [|reflexivity].
  apply andb_true_iff in E as [_ Hr]. destruct r; [reflexivity|discriminate].
Qed.

Lemma edge_hyphens_start c r :
  edge_hyphens true (c :: r) =
  if (c =? hyphen)%N
  then match edge_hyphens false r with Some n => Some (S n) | None => Some 1 end
  else None.
Proof.
  unfold edge_hyphens. cbn [edge_length edge_hyphen orb]. rewrite andb_true_r.
  destruct (c =? hyphen)%N; [|reflexivity].
  now destruct (edge_length false r).
Qed.

Lemma trim_inner s :
  replace_from edge_hyphens [] false 0 s = drop_last_hyphen s.
Proof.
  induction s as [|c r IH]; [reflexivity|].
  cbn [replace_from drop_last_hyphen]. rewrite edge_hyphens_inner.
  destruct ((c =? hyphen)%N && is_nil r) eqn:E.
  - apply andb_true_iff in E as [_ Hr]. destruct r; [reflexivity|discriminate].
  - now rewrite IH.
Qed.

Lemma trim_cons c r :
  trim (c :: r) =
  if (c =? hyphen)%N then drop_last_hyphen r else c :: drop_last_hyphen r.
Proof.
  unfold replaceAll. cbn [replace_from]. rewrite edge_hyphens_start.
  destruct (c =? hyphen)%N; [|now rewrite trim_inner].
  destruct r as [|d r']; [reflexivity|].
  rewrite edge_hyphens_inner. cbn [drop_last_hyphen].
  destruct ((d =? hyphen)%N && is_nil r') eqn:E.
  - apply andb_true_iff in E as [_ Hr]. destruct r'; [reflexivity|discriminate].
  - cbn [app]. rewrite trim_inner. cbn [drop_last_hyphen]. now rewrite E.
Qed.

Lemma drop_last_hyphen_snoc s c :
  drop_last_hyphen (s ++ [c]) = if (c =? hyphen)%N then s else s ++ [c].
Proof.
  induction s as [|d r IH]; cbn [app drop_last_hyphen is_nil].
  - rewrite andb_true_r. now destruct (c =? hyphen)%N.
  - replace (is_nil (r ++ [c])) with false by now destruct r.
    rewrite andb_false_r, IH. now destruct (c =? hyphen)%N.
Qed.

Lemma strip_trailing_drop s : Reference.strip_trailing s = drop_last_hyphen s.
Proof.
  unfold Reference.strip_trailing.
  destruct s as [|c r] using rev_ind; [reflexivity|].
  rewrite rev_app_distr, drop_last_hyphen_snoc. cbn [rev app Reference.strip_leading].
  destruct (c =? hyphen)%N.
  - apply rev_involutive.
  - change (c :: rev r) with (rev [c] ++ rev r).
    now rewrite <- rev_app_distr, rev_involutive.
Qed.

(** The second replacement strips a leading hyphen, then a trailing one,
    whatever the subject. *)
Lemma trim_strips s :
  trim s = Reference.strip_trailing (Reference.strip_leading s).
Proof.
  rewrite strip_trailing_drop. destruct s as [|c r]; [reflexivity|].
  rewrite trim_cons. cbn [Reference.strip_leading].
  destruct (c =? hyphen)%N eqn:E; [reflexivity|].
  cbn [drop_last_hyphen]. rewrite E. reflexivity.
Qed.

(** ** The reference algorithm *)

Lemma runs_head c r :
  exists g gs, Reference.runs (c :: r) = (in_class c, c :: g) :: gs.
Proof.
  cbn [Reference.runs]. destruct (Reference.runs r) as [|[b g] gs].
  - now exists [], [].
  - destruct (Bool.eqb (in_class c) b) eqn:E.
    + apply eqb_prop in E. subst b. now exists g, gs.
    + now exists [], ((b, g) :: gs).
Qed.

(** [runs] cuts the string into its maximal runs: the runs give the string
    back, none is empty, each lies on one side of the class, and two runs
    in a row lie on different sides. *)
Lemma runs_concat s : concat (map snd (Reference.runs s)) = s.
Proof.
  induction s as [|c r IH]; [reflexivity|].
  cbn [Reference.runs]. destruct (Reference.runs r) as [|[b g] gs].
  - cbn in *. now subst r.
  - destruct (Bool.eqb (in_class c) b); cbn in *; now rewrite IH.
Qed.

Lemma runs_uniform s :
  Forall (fun run => snd run <> [] /\ Forall (fun c => in_class c = fst run) (snd run))
         (Reference.runs s).
Proof.
  induction s as [|c r IH]; [constructor|].
  cbn [Reference.runs]. destruct (Reference.runs r) as [|[b g] gs].
  - repeat constructor. discriminate.
  - destruct (Bool.eqb (in_class c) b) eqn:E.
    + apply eqb_prop in E. inversion IH as [|? ? [_ Hg] Hgs]; subst.
      constructor; [|assumption]. split; [discriminate|]. now constructor.
    + constructor; [|assumption]. split; [discriminate|]. now repeat constructor.
Qed.

Lemma runs_alternate s : Reference.alternate (Reference.runs s).
Proof.
  induction s as [|c r IH]; [exact I|].
  cbn [Reference.runs]. destruct (Reference.runs r) as [|[b g] gs] eqn:Er.
  - exact I.
  - destruct (Bool.eqb (in_class c) b) eqn:E.
    + destruct gs; [exact I|]. exact IH.
    + split; [|exact IH]. cbn. now apply eqb_false_iff.
Qed.

Lemma replace_runs_cons c r :
  Reference.replace_runs (c :: r) =
  if in_class c then c :: Reference.replace_runs r
  else match r with
       | d :: _ =>
           if in_class d then hyphen :: Reference.replace_runs r
           else Reference.replace_runs r
       | [] => [hyphen]
       end.
Proof.
  unfold Reference.replace_runs. destruct r as [|d r'].
  - cbn. now destruct (in_class c).
  - destruct (runs_head d r') as (g & gs & E).
    change (Reference.runs (c :: d :: r')) with
      (match Reference.runs (d :: r') with
       | (b, g) :: gs =>
           if Bool.eqb (in_class c) b then (b, c :: g) :: gs
           else (in_class c, [c]) :: (b, g) :: gs
       | [] => [(in_class c, [c])]
       end).
    rewrite E. destruct (in_class c), (in_class d); reflexivity.
Qed.

Lemma collapse_replace_runs s : collapse s = Reference.replace_runs s.
Proof.
  induction s as [|c r IH]; [reflexivity|].
  rewrite collapse_cons, replace_runs_cons, IH. reflexivity.
Qed.

(** C1.  For every input string, [slugify] gives what the four steps of
    the specification give: lowercase the string, replace every maximal
    run of code units outside [a-z0-9] with one hyphen, strip a leading
    hyphen if there is one, strip a trailing hyphen if there is one. *)
Theorem slugify_is_reference lowerNonAscii (s : jsstring) :
  slugify lowerNonAscii s = Reference.slugify lowerNonAscii s.
Proof.
  unfold slugify, Reference.slugify.
  rewrite trim_strips, collapse_replace_runs. reflexivity.
Qed.

(** ** The shape of what [slugify] returns *)

Lemma collapse_collapsed s : collapsed_scan false (collapse s) = true.
Proof.
  induction s as [|c r IH]; [reflexivity|].
  rewrite collapse_cons. destruct (in_class c) eqn:Hc.
  - cbn [collapsed_scan]. now rewrite Hc.
  - destruct r as [|d r']; [reflexivity|].
    destruct (in_class d) eqn:Hd; [|exact IH].
    rewrite collapse_cons, Hd in IH |- *.
    cbn [collapsed_scan] in IH |- *. rewrite Hd in IH |- *. exact IH.
Qed.

Lemma drop_last_collapsed s :
  (collapsed_scan false s = true -> slug_scan true (drop_last_hyphen s) = true)
  /\ (collapsed_scan true s = true -> s <> [] ->
      slug_scan false (drop_last_hyphen s) = true).
Proof.
  induction s as [|c r [IH1 IH2]]; [split; [reflexivity|congruence]|].
  cbn [collapsed_scan drop_last_hyphen]. destruct (in_class c) eqn:Hc.
  - rewrite (in_class_not_hyphen _ Hc). cbn [andb slug_scan]. rewrite Hc.
    split; intros; now apply IH1.
  - split; [|now rewrite andb_false_r].
    destruct (c =? hyphen)%N eqn:Eh; [|discriminate]. cbn [andb negb].
    intros Hr. destruct r as [|d r']; [reflexivity|].
    cbn [is_nil slug_scan]. rewrite Hc, Eh. cbn [andb].
    apply IH2; [assumption|discriminate].
Qed.

(** After the two replacements the string is empty or a slug. *)
Lemma trim_collapsed s :
  collapsed_scan false s = true -> trim s = [] \/ is_slug (trim s) = true.
Proof.
  destruct s as [|c r]; [now left|].
  rewrite trim_cons. cbn [collapsed_scan]. destruct (in_class c) eqn:Hc.
  - rewrite (in_class_not_hyphen _ Hc). intros Hr. right.
    unfold is_slug. cbn [slug_scan]. rewrite Hc.
    now apply drop_last_collapsed.
  - destruct (c =? hyphen)%N; [|discriminate]. cbn [andb negb]. intros Hr.
    destruct r as [|d r']; [now left|]. right.
    apply drop_last_collapsed; [assumption|discriminate].
Qed.

Lemma slugify_empty_or_slug lowerNonAscii s :
  slugify lowerNonAscii s = [] \/ is_slug (slugify lowerNonAscii s) = true.
Proof. apply trim_collapsed, collapse_collapsed. Qed.

(** *** What a slug is made of *)

Lemma slug_scan_units b s : slug_scan b s = true -> forallb slug_unit s = true.
Proof.
  revert b. induction s as [|c r IH]; intros b; [reflexivity|].
  cbn [slug_scan forallb]. unfold slug_unit at 1. destruct (in_class c).
  - apply IH.
  - intros H. apply andb_true_iff in H as [H Hr].
    apply andb_true_iff in H as [-> _]. cbn. now apply IH in Hr.
Qed.

Lemma slug_scan_no_double b s :
  slug_scan b s = true -> has_double_hyphen s = false.
Proof.
  revert b. induction s as [|c r IH]; intros b; [reflexivity|].
  cbn [slug_scan has_double_hyphen]. destruct (in_class c) eqn:Hc.
  - rewrite (in_class_not_hyphen _ Hc). cbn [andb orb]. apply IH.
  - intros H. apply andb_true_iff in H as [_ Hr].
    rewrite (IH _ Hr), orb_false_r. apply andb_false_iff. right.
    destruct r as [|d r']; [reflexivity|]. cbn [slug_scan starts_with_hyphen] in *.
    destruct (in_class d) eqn:Hd; [now apply in_class_not_hyphen|].
    now rewrite andb_false_r in Hr.
Qed.

Lemma slug_scan_last b s c :
  slug_scan b (s ++ [c]) = true -> (c =? hyphen)%N = false.
Proof.
  revert b. induction s as [|d r IH]; intros b; cbn [app slug_scan].
  - destruct (in_class c) eqn:Hc; [intros _; now apply in_class_not_hyphen|].
    now rewrite andb_false_r.
  - destruct (in_class d); [apply IH|].
    intros H. apply andb_true_iff in H as [_ Hr]. now apply IH in Hr.
Qed.

Lemma is_slug_starts s : is_slug s = true -> starts_with_hyphen s = false.
Proof.
  destruct s as [|c r]; [reflexivity|]. unfold is_slug. cbn.
  destruct (in_class c) eqn:Hc; [intros _; now apply in_class_not_hyphen|].
  now rewrite andb_false_r.
Qed.

Lemma is_slug_ends s : is_slug s = true -> ends_with_hyphen s = false.
Proof.
  unfold ends_with_hyphen.
  destruct s as [|c r _] using rev_ind; [reflexivity|].
  rewrite rev_app_distr. cbn. apply slug_scan_last.
Qed.

(** C9.  [slugify] is total: for every string, also the empty one (whose
    slug is empty), what it returns holds only code units of [a-z0-9] and
    hyphens, does not begin and does not end with a hyphen, and has no two
    hyphens in a row. *)
Theorem slugify_total_shape lowerNonAscii (s : jsstring) :
  slugify lowerNonAscii [] = []
  /\ forallb slug_unit (slugify lowerNonAscii s) = true
  /\ starts_with_hyphen (slugify lowerNonAscii s) = false
  /\ ends_with_hyphen (slugify lowerNonAscii s) = false
  /\ has_double_hyphen (slugify lowerNonAscii s) = false.
Proof.
  split; [reflexivity|].
  destruct (slugify_empty_or_slug lowerNonAscii s) as [-> | H].
  - now repeat split.
  - repeat split.
    + now apply slug_scan_units with (b := false).
    + now apply is_slug_starts.
    + now apply is_slug_ends.
    + now apply slug_scan_no_double with (b := false).
Qed.

(** *** The pattern of the specification *)

Lemma star_plus r s : Matches (Star r) s -> s <> [] -> Matches (Plus r) s.
Proof.
  intros H. remember (Star r) as e eqn:E.
  induction H as [| | | |r' s1 s2 H1 _ H2 IH]; try discriminate.
  - congruence.
  - injection E as ->. intros Hne. destruct s1 as [|c s1'].
    + now apply IH.
    + now constructor.
Qed.

Lemma slug_scan_matches s :
  forall b, slug_scan b s = true ->
  exists w rest,
    s = w ++ rest
    /\ Matches (Star (Class in_class)) w
    /\ (b = false -> w <> [])
    /\ Matches slug_groups rest.
Proof.
  induction s as [|c r IH]; intros b; cbn [slug_scan].
  - intros ->. exists [], [].
    split; [reflexivity|]. split; [constructor|]. split; [discriminate|constructor].
  - destruct (in_class c) eqn:Hc.
    + intros H. destruct (IH _ H) as (w & rest & -> & Hw & _ & Hrest).
      exists (c :: w), rest.
      split; [reflexivity|]. split; [|split; [discriminate|assumption]].
      apply (MStarApp (s1 := [c])); [now constructor|assumption].
    + intros H. apply andb_true_iff in H as [H Hr].
      apply andb_true_iff in H as [Eh ->]. apply N.eqb_eq in Eh. subst c.
      destruct (IH _ Hr) as (w & rest & -> & Hw & Hne & Hrest).
      exists [], (([hyphen] ++ w) ++ rest).
      split; [reflexivity|]. split; [constructor|]. split; [discriminate|].
      constructor; [|assumption].
      constructor; [constructor|]. apply star_plus; auto.
Qed.

Lemma is_slug_matches s : is_slug s = true -> Matches slug_pattern s.
Proof.
  intros H. destruct (slug_scan_matches _ _ H) as (w & rest & -> & Hw & Hne & Hrest).
  constructor; [|assumption]. apply star_plus; auto.
Qed.

(** The scan accepts exactly the strings the pattern matches. *)
Lemma star_class_units w :
  Matches (Star (Class in_class)) w -> forallb in_class w = true.
Proof.
  intros H. remember (Star (Class in_class)) as e eqn:E.
  induction H as [| | | |r' s1 s2 H1 _ H2 IH]; try discriminate; [reflexivity|].
  injection E as ->. inversion H1; subst. cbn. rewrite IH by reflexivity.
  now rewrite andb_true_r.
Qed.

Lemma slug_scan_word w rest b :
  forallb in_class w = true ->
  slug_scan b (w ++ rest) = slug_scan (b || negb (is_nil w)) rest.
Proof.
  revert b. induction w as [|c w' IH]; intros b; cbn [app forallb is_nil negb].
  - now rewrite orb_false_r.
  - intros H. apply andb_true_iff in H as [Hc Hw].
    cbn [slug_scan]. rewrite Hc, IH by assumption. now rewrite orb_true_r.
Qed.

Lemma plus_class_units w :
  Matches (Plus (Class in_class)) w -> forallb in_class w = true /\ w <> [].
Proof.
  intros H. inversion H as [| |? ? s1 s2 H1 H2| |]; subst.
  inversion H1; subst. apply star_class_units in H2.
  split; [|discriminate]. cbn. now rewrite H2, andb_true_r.
Qed.

Lemma slug_groups_scan rest :
  Matches slug_groups rest -> slug_scan true rest = true.
Proof.
  intros H. remember slug_groups as e eqn:E.
  induction H as [| | | |r' s1 s2 H1 _ H2 IH]; try discriminate; [reflexivity|].
  injection E as ->.
  inversion H1 as [| |? ? h w Hh Hw| |]; subst. inversion Hh; subst.
  apply plus_class_units in Hw as [Hw Hne].
  rewrite <- app_assoc. cbn [app slug_scan]. cbn.
  rewrite slug_scan_word by assumption.
  destruct w; [congruence|]. now apply IH.
Qed.

Lemma is_slug_iff_matches s : is_slug s = true <-> Matches slug_pattern s.
Proof.
  split; [apply is_slug_matches|].
  intros H. inversion H as [| |? ? w rest Hw Hrest| |]; subst.
  apply plus_class_units in Hw as [Hw Hne]. unfold is_slug.
  rewrite slug_scan_word by assumption.
  destruct w; [congruence|]. now apply slug_groups_scan.
Qed.

(** *** Which code units survive *)

Lemma hyphen_not_in_class : in_class hyphen = false.
Proof. reflexivity. Qed.

Lemma collapse_keeps_class s :
  existsb in_class (collapse s) = existsb in_class s.
Proof.
  induction s as [|c r IH]; [reflexivity|].
  rewrite collapse_cons. cbn [existsb]. destruct (in_class c) eqn:Hc.
  - cbn [existsb]. now rewrite Hc.
  - destruct r as [|d r']; [reflexivity|].
    destruct (in_class d); [|exact IH].
    cbn [existsb orb] in *. now rewrite hyphen_not_in_class.
Qed.

Lemma drop_last_keeps_class s :
  existsb in_class (drop_last_hyphen s) = existsb in_class s.
Proof.
  induction s as [|c r IH]; [reflexivity|].
  cbn [drop_last_hyphen]. destruct ((c =? hyphen)%N && is_nil r) eqn:E.
  - apply andb_true_iff in E as [Eh Hr]. apply N.eqb_eq in Eh. subst c.
    destruct r; [reflexivity|discriminate].
  - cbn [existsb]. now rewrite IH.
Qed.

Lemma trim_keeps_class s : existsb in_class (trim s) = existsb in_class s.
Proof.
  destruct s as [|c r]; [reflexivity|]. rewrite trim_cons.
  destruct (c =? hyphen)%N eqn:Eh; cbn [existsb];
    rewrite drop_last_keeps_class; [|reflexivity].
  apply N.eqb_eq in Eh. subst c. reflexivity.
Qed.

Lemma lower_from_has_alnum lowerNonAscii s :
  forall before,
  existsb in_class (lower_from lowerNonAscii before s)
  = has_alnum_from lowerNonAscii before s.
Proof.
  induction s as [|c r IH]; intros before; [reflexivity|].
  cbn [lower_from has_alnum_from]. now rewrite existsb_app, IH.
Qed.

Lemma slugify_keeps_class lowerNonAscii s :
  existsb in_class (slugify lowerNonAscii s) = has_alnum lowerNonAscii s.
Proof.
  unfold slugify. rewrite trim_keeps_class, collapse_keeps_class.
  apply lower_from_has_alnum.
Qed.

Lemma is_slug_has_class s : is_slug s = true -> existsb in_class s = true.
Proof.
  destruct s as [|c r]; [discriminate|]. unfold is_slug. cbn.
  destruct (in_class c); [reflexivity|]. now rewrite andb_false_r.
Qed.

(** C2.  When some character of the input (which is then not empty)
    lowercases into [a-z0-9], [slugify] returns a string that matches
    [^[a-z0-9]+(-[a-z0-9]+)*$]; and it returns the empty string only when
    no character of the input does (and always then). *)
Theorem slugify_matches_pattern lowerNonAscii (s : jsstring) :
  (s <> [] -> has_alnum lowerNonAscii s = true ->
   Matches slug_pattern (slugify lowerNonAscii s))
  /\ (slugify lowerNonAscii s = [] <-> has_alnum lowerNonAscii s = false).
Proof.
  pose proof (slugify_keeps_class lowerNonAscii s) as K.
  destruct (slugify_empty_or_slug lowerNonAscii s) as [E | H].
  - rewrite E in K. cbn in K. split.
    + intros _ Ha. congruence.
    + split; [now intros _|now intros _].
  - rewrite (is_slug_has_class _ H) in K. split.
    + intros _ _. now apply is_slug_matches.
    + split.
      * intros E. rewrite E in H. discriminate.
      * congruence.
Qed.

(** ** Idempotence *)

Lemma lower_slug_units lowerNonAscii s :
  forallb slug_unit s = true ->
  forall before, lower_from lowerNonAscii before s = s.
Proof.
  induction s as [|c r IH]; [reflexivity|].
  cbn [forallb]. intros H before. apply andb_true_iff in H as [Hc Hr].
  cbn [lower_from]. rewrite IH by assumption.
  unfold lower_unit. unfold slug_unit in Hc. apply orb_true_iff in Hc as [Hc|Hc].
  - now rewrite (in_class_not_upper _ Hc), (in_class_ascii _ Hc).
  - apply N.eqb_eq in Hc. subst c. reflexivity.
Qed.

Lemma collapse_slug b s : slug_scan b s = true -> collapse s = s.
Proof.
  revert b. induction s as [|c r IH]; intros b; [reflexivity|].
  cbn [slug_scan]. rewrite collapse_cons. destruct (in_class c).
  - intros H. now rewrite (IH _ H).
  - intros H. apply andb_true_iff in H as [H Hr].
    apply andb_true_iff in H as [Eh _]. apply N.eqb_eq in Eh. subst c.
    rewrite (IH _ Hr). destruct r as [|d r']; [discriminate|].
    cbn [slug_scan] in Hr. destruct (in_class d); [reflexivity|].
    now rewrite andb_false_r in Hr.
Qed.

Lemma drop_last_slug b s : slug_scan b s = true -> drop_last_hyphen s = s.
Proof.
  revert b. induction s as [|c r IH]; intros b; [reflexivity|].
  cbn [slug_scan drop_last_hyphen]. destruct (in_class c) eqn:Hc.
  - rewrite (in_class_not_hyphen _ Hc). cbn [andb]. intros H. now rewrite (IH _ H).
  - intros H. apply andb_true_iff in H as [_ Hr].
    rewrite (IH _ Hr). destruct r; [discriminate|]. now rewrite andb_false_r.
Qed.

Lemma trim_slug s : is_slug s = true -> trim s = s.
Proof.
  destruct s as [|c r]; [reflexivity|]. unfold is_slug. cbn [slug_scan].
  rewrite trim_cons. destruct (in_class c) eqn:Hc.
  - rewrite (in_class_not_hyphen _ Hc). intros H. now rewrite (drop_last_slug _ _ H).
  - now rewrite andb_false_r.
Qed.

Lemma slugify_slug lowerNonAscii s :
  is_slug s = true -> slugify lowerNonAscii s = s.
Proof.
  intros H. unfold slugify, toLowerCase.
  rewrite lower_slug_units by now apply slug_scan_units with (b := false).
  rewrite (collapse_slug _ _ H). now apply trim_slug.
Qed.

(** C3.  [slugify] is idempotent: slugifying a slug gives it back. *)
Theorem slugify_idempotent lowerNonAscii (s : jsstring) :
  slugify lowerNonAscii (slugify lowerNonAscii s) = slugify lowerNonAscii s.
Proof.
  destruct (slugify_empty_or_slug lowerNonAscii s) as [-> | H].
  - reflexivity.
  - now apply slugify_slug.
Qed.

(** ** The examples of the specification *)

(** C4.  ["2.2 Initializer Lists"] gives ["2-2-initializer-lists"],
    ["Arrays and Pointers"] gives ["arrays-and-pointers"] and
    ["  Leading/Trailing!!"] gives ["leading-trailing"]. *)
Theorem slugify_examples lowerNonAscii :
  slugify lowerNonAscii (lit "2.2 Initializer Lists") = lit "2-2-initializer-lists"
  /\ slugify lowerNonAscii (lit "Arrays and Pointers") = lit "arrays-and-pointers"
  /\ slugify lowerNonAscii (lit "  Leading/Trailing!!") = lit "leading-trailing".
Proof. repeat split; vm_compute; reflexivity. Qed.

(** ** The authored titles *)

Lemma jsstring_eqb_eq s t : jsstring_eqb s t = true <-> s = t.
Proof.
  revert t. induction s as [|c s' IH]; intros [|d t']; cbn; try easy.
  rewrite andb_true_iff, N.eqb_eq, IH. split.
  - now intros [-> ->].
  - intros E. now injection E.
Qed.

Lemma distinct_NoDup l : distinct l = true -> NoDup l.
Proof.
  induction l as [|s rest IH]; cbn; [constructor|].
  intros H. apply andb_true_iff in H as [Hs Hr]. constructor; [|now apply IH].
  intros Hin. apply negb_true_iff in Hs.
  assert (existsb (jsstring_eqb s) rest = true) as E; [|congruence].
  apply existsb_exists. exists s. split; [assumption|]. now apply jsstring_eqb_eq.
Qed.

(** C7.  The authored content model has 10 topics and 21 subtopics; the
    title of every topic and of every subtopic has a slug that is not
    empty, and the 31 slugs are pairwise distinct. *)
Theorem topics_slugs_unique lowerNonAscii :
  length topics = 10
  /\ list_sum (map (fun topic => length (Topic.subtopics topic)) topics) = 21
  /\ length (map (slugify lowerNonAscii) (titles_of topics)) = 31
  /\ Forall (fun slug => slug <> []) (map (slugify lowerNonAscii) (titles_of topics))
  /\ NoDup (map (slugify lowerNonAscii) (titles_of topics)).
Proof.
  split; [reflexivity|]. split; [reflexivity|]. split; [reflexivity|].
  split.
  - apply Forall_forall. intros slug Hin.
    assert (forallb (fun s => negb (is_nil s))
              (map (slugify lowerNonAscii) (titles_of topics)) = true) as H
      by (vm_compute; reflexivity).
    rewrite forallb_forall in H. apply H in Hin. now destruct slug.
  - apply distinct_NoDup. vm_compute. reflexivity.
Qed.

(** ** The rendered tree *)

Arguments lit : simpl never.
Arguments slugify : simpl never.
Arguments select : simpl never.

Lemma select_element p tag attrs children :
  select p (Element tag attrs children) =
  (if p (Element tag attrs children) then [Element tag attrs children] else [])
  ++ flat_map (select p) children.
Proof.
  unfold select. cbn [nodes filter].
  assert (forall l, filter p (flat_map nodes l)
                    = flat_map (fun n => filter p (nodes n)) l) as E.
  { induction l as [|n l IH]; [reflexivity|].
    cbn [flat_map]. now rewrite filter_app, IH. }
  rewrite E. now destruct (p (Element tag attrs children)).
Qed.

Lemma select_text p s : select p (Text s) = if p (Text s) then [Text s] else [].
Proof. reflexivity. Qed.

Lemma select_map p (A : Type) (f : A -> Node) (h : A -> list Node) l :
  (forall x, select p (f x) = h x) ->
  flat_map (select p) (map f l) = flat_map h l.
Proof.
  intros H. induction l as [|x l IH]; [reflexivity|].
  cbn [map flat_map]. now rewrite H, IH.
Qed.

Lemma flat_map_none (A B : Type) (l : list A) :
  flat_map (fun _ : A => @nil B) l = [].
Proof. induction l; [reflexivity|assumption]. Qed.

Lemma flat_map_one (A B : Type) (g : A -> B) (l : list A) :
  flat_map (fun x => [g x]) l = map g l.
Proof. induction l as [|x l IH]; [reflexivity|]. cbn. now rewrite IH. Qed.

Ltac select_step :=
  rewrite ?select_element, ?select_text;
  cbn [has_tag has_class is_class existsb orb String.eqb Ascii.eqb Bool.eqb
       flat_map app when map].

Ltac select_all := repeat progress select_step.

(** A query over a list of children that were rendered one by one, each
    child being a tree of fixed shape. *)
Ltac select_children :=
  repeat match goal with
  | |- context [flat_map (select ?p) (map ?f ?l)] =>
      erewrite (select_map p f)
        by (intros; cbv beta;
            match goal with
            | |- _ = ?rhs =>
                let found := fresh "found" in
                set (found := rhs); select_all; subst found
            end; reflexivity)
  end;
  rewrite ?flat_map_none, ?flat_map_one.

Section Rendered.

Variable lowerNonAscii : jsstring -> N -> jsstring -> jsstring.

Abbreviation note_item := (fun note : jsstring => Element "li" [Key note] [Text note]).

Abbreviation note_list :=
  (fun notes : list jsstring =>
     Element "ul" [ClassName "notes"] (map note_item notes)).

Abbreviation code_group :=
  (fun (subtopic : Subtopic.t) (code : list CodeSample.t) =>
     Element "div" [ClassName "codeGroup"] (map (render_sample subtopic) code)).

(** *** A subtopic section *)

Lemma select_note_list notes :
  select (has_tag "li") (note_list notes) = map note_item notes.
Proof. select_all. select_children. reflexivity. Qed.

Lemma select_code_group subtopic code :
  select (has_tag "figure") (code_group subtopic code)
  = map (render_sample subtopic) code.
Proof.
  select_all. unfold render_sample. select_children. reflexivity.
Qed.

Ltac select_subtopic subtopic :=
  unfold render_subtopic, render_sample;
  destruct (Subtopic.notes subtopic), (Subtopic.code subtopic);
  select_all; select_children; reflexivity.

Lemma select_subtopic_notes subtopic :
  note_lists (render_subtopic lowerNonAscii subtopic)
  = when (Subtopic.notes subtopic) note_list.
Proof. unfold note_lists. select_subtopic subtopic. Qed.

Lemma select_subtopic_code subtopic :
  code_groups (render_subtopic lowerNonAscii subtopic)
  = when (Subtopic.code subtopic) (code_group subtopic).
Proof. unfold code_groups. select_subtopic subtopic. Qed.

Lemma select_subtopic_self subtopic :
  subtopic_sections (render_subtopic lowerNonAscii subtopic)
  = [render_subtopic lowerNonAscii subtopic].
Proof. unfold subtopic_sections. select_subtopic subtopic. Qed.

Lemma select_subtopic_topic subtopic :
  topic_sections (render_subtopic lowerNonAscii subtopic) = [].
Proof. unfold topic_sections. select_subtopic subtopic. Qed.

Lemma select_subtopic_h3 subtopic :
  select (has_tag "h3") (render_subtopic lowerNonAscii subtopic)
  = [Element "h3" [] [Text (Subtopic.title subtopic)]].
Proof. select_subtopic subtopic. Qed.

Lemma select_subtopic_h2 subtopic :
  select (has_tag "h2") (render_subtopic lowerNonAscii subtopic) = [].
Proof. select_subtopic subtopic. Qed.

Lemma select_subtopic_nav subtopic :
  select (has_tag "nav") (render_subtopic lowerNonAscii subtopic) = [].
Proof. select_subtopic subtopic. Qed.

(** *** A topic section *)

Ltac select_topic lemma :=
  unfold render_topic; select_all;
  erewrite (select_map _ (render_subtopic lowerNonAscii)) by (exact lemma);
  rewrite ?flat_map_none, ?flat_map_one, ?app_nil_r; reflexivity.

Lemma select_topic_self topic :
  topic_sections (render_topic lowerNonAscii topic)
  = [render_topic lowerNonAscii topic].
Proof. unfold topic_sections. select_topic select_subtopic_topic. Qed.

Lemma select_topic_subtopics topic :
  subtopic_sections (render_topic lowerNonAscii topic)
  = map (render_subtopic lowerNonAscii) (Topic.subtopics topic).
Proof. unfold subtopic_sections. select_topic select_subtopic_self. Qed.

Lemma select_topic_h2 topic :
  select (has_tag "h2") (render_topic lowerNonAscii topic)
  = [Element "h2" [] [Text (Topic.title topic)]].
Proof. select_topic select_subtopic_h2. Qed.

Lemma select_topic_nav topic :
  select (has_tag "nav") (render_topic lowerNonAscii topic) = [].
Proof. select_topic select_subtopic_nav. Qed.

Lemma select_topic_code topic :
  code_groups (render_topic lowerNonAscii topic)
  = flat_map (fun subtopic => when (Subtopic.code subtopic) (code_group subtopic))
             (Topic.subtopics topic).
Proof. unfold code_groups. select_topic select_subtopic_code. Qed.

(** *** The page *)

Ltac select_page lemma :=
  unfold HomeOf, render_nav_entry; select_all;
  erewrite (select_map _ (render_topic lowerNonAscii)) by (exact lemma);
  select_children;
  rewrite ?flat_map_none, ?flat_map_one, ?app_nil_r; reflexivity.

Lemma select_page_topics content :
  topic_sections (HomeOf lowerNonAscii content)
  = map (render_topic lowerNonAscii) content.
Proof. unfold topic_sections. select_page select_topic_self. Qed.

Lemma select_page_subtopics content :
  subtopic_sections (HomeOf lowerNonAscii content)
  = flat_map (fun topic =>
                map (render_subtopic lowerNonAscii) (Topic.subtopics topic))
             content.
Proof. unfold subtopic_sections. select_page select_topic_subtopics. Qed.

Lemma select_page_code content :
  code_groups (HomeOf lowerNonAscii content)
  = flat_map (fun topic =>
                flat_map (fun subtopic =>
                            when (Subtopic.code subtopic) (code_group subtopic))
                         (Topic.subtopics topic))
             content.
Proof. unfold code_groups. select_page select_topic_code. Qed.

Lemma select_page_nav content :
  nav_entries (HomeOf lowerNonAscii content)
  = map (render_nav_entry lowerNonAscii) content.
Proof.
  unfold nav_entries, HomeOf. select_all.
  erewrite (select_map (has_tag "nav") (render_topic lowerNonAscii))
    by (exact select_topic_nav).
  unfold render_nav_entry. select_children.
  rewrite ?flat_map_none. cbn [app flat_map]. select_all. select_children.
  now rewrite !app_nil_r.
Qed.

(** *** The outline of the page *)

Lemma links_of_entry topic :
  links_of (render_nav_entry lowerNonAscii topic)
  = [(Some (lit "#" ++ slugify lowerNonAscii (Topic.title topic)),
      Topic.title topic)].
Proof.
  unfold links_of, render_nav_entry. select_all.
  cbn [map href_of first_attr attr_href text_of flat_map].
  now rewrite app_nil_r.
Qed.

Lemma note_items_subtopic subtopic :
  note_items (render_subtopic lowerNonAscii subtopic)
  = map note_item (notes_of subtopic).
Proof.
  unfold note_items, notes_of. rewrite select_subtopic_notes.
  destruct (Subtopic.notes subtopic) as [notes|]; [|reflexivity].
  cbn [when flat_map]. rewrite select_note_list. apply app_nil_r.
Qed.

Lemma code_figures_subtopic subtopic :
  code_figures (render_subtopic lowerNonAscii subtopic)
  = map (render_sample subtopic) (samples_of subtopic).
Proof.
  unfold code_figures, samples_of. rewrite select_subtopic_code.
  destruct (Subtopic.code subtopic) as [code|]; [|reflexivity].
  cbn [when flat_map]. rewrite select_code_group. apply app_nil_r.
Qed.

Lemma sample_view_figure subtopic sample :
  sample_view (render_sample subtopic sample) = authored_sample sample.
Proof.
  unfold sample_view, headings, render_sample, authored_sample. select_all.
  cbn [map text_of flat_map]. now rewrite !app_nil_r.
Qed.

Lemma subtopic_outline_section subtopic :
  subtopic_outline (render_subtopic lowerNonAscii subtopic)
  = authored_subtopic lowerNonAscii subtopic.
Proof.
  unfold subtopic_outline, authored_subtopic, headings.
  rewrite select_subtopic_h3, note_items_subtopic, code_figures_subtopic.
  rewrite !map_map. cbn [map text_of flat_map id_of render_subtopic first_attr attr_id].
  rewrite app_nil_r. f_equal; [f_equal|].
  - rewrite <- (map_id (notes_of subtopic)) at 2. apply map_ext.
    intros note. apply app_nil_r.
  - apply map_ext. intros sample. apply sample_view_figure.
Qed.

Lemma topic_outline_section topic :
  topic_outline (render_topic lowerNonAscii topic)
  = authored_topic lowerNonAscii topic.
Proof.
  unfold topic_outline, authored_topic, headings.
  rewrite select_topic_h2, select_topic_subtopics, map_map.
  cbn [map text_of flat_map id_of render_topic first_attr attr_id].
  rewrite app_nil_r. f_equal. apply map_ext. apply subtopic_outline_section.
Qed.

Lemma length_flat_map_sum (A B : Type) (f : A -> list B) (l : list A) :
  length (flat_map f l) = list_sum (map (fun x => length (f x)) l).
Proof.
  induction l as [|x l IH]; [reflexivity|].
  cbn [flat_map map list_sum]. now rewrite length_app, IH.
Qed.

(** C5.  For a content model of N topics, the i-th with M_i subtopics, the
    page has a navigation list of N entries in the order of the content
    model, each one link whose target is [#] followed by the slug of the
    topic's title and whose label is the title; it has N topic sections
    and the sum of the M_i subtopic sections, each with the slug of its
    title as [id]; and topics, subtopics, notes and code samples stand in
    the order in which they were authored. *)
Theorem page_structure (content : list Topic.t) :
  map links_of (nav_entries (HomeOf lowerNonAscii content))
  = map (fun topic =>
           [(Some (lit "#" ++ slugify lowerNonAscii (Topic.title topic)),
             Topic.title topic)])
        content
  /\ length (nav_entries (HomeOf lowerNonAscii content)) = length content
  /\ length (topic_sections (HomeOf lowerNonAscii content)) = length content
  /\ length (subtopic_sections (HomeOf lowerNonAscii content))
     = list_sum (map (fun topic => length (Topic.subtopics topic)) content)
  /\ map id_of (subtopic_sections (HomeOf lowerNonAscii content))
     = flat_map (fun topic =>
                   map (fun subtopic =>
                          Some (slugify lowerNonAscii (Subtopic.title subtopic)))
                       (Topic.subtopics topic))
                content
  /\ page_outline (HomeOf lowerNonAscii content)
     = map (authored_topic lowerNonAscii) content.
Proof.
  rewrite select_page_nav, select_page_topics, select_page_subtopics.
  rewrite !length_map, map_map. repeat split.
  - apply map_ext. apply links_of_entry.
  - rewrite length_flat_map_sum. f_equal. apply map_ext.
    intros topic. apply length_map.
  - induction content as [|topic rest IH]; [reflexivity|].
    cbn [flat_map]. rewrite map_app, IH, map_map. reflexivity.
  - unfold page_outline. rewrite select_page_topics, map_map.
    apply map_ext. apply topic_outline_section.
Qed.

(** C6, as the code has it.  The section of a subtopic has no notes list
    when the subtopic has no [notes] property, and no code group when it
    has no [code] property; with the property it has the list or the
    group, which holds one item per note or one figure per sample.  So a
    subtopic with no [notes] property renders no note item, and one whose
    [code] list is empty renders no figure. *)
Theorem subtopic_groups (subtopic : Subtopic.t) :
  note_lists (render_subtopic lowerNonAscii subtopic)
  = match Subtopic.notes subtopic with
    | None => []
    | Some notes => [Element "ul" [ClassName "notes"] (map note_item notes)]
    end
  /\ code_groups (render_subtopic lowerNonAscii subtopic)
     = match Subtopic.code subtopic with
       | None => []
       | Some code =>
           [Element "div" [ClassName "codeGroup"]
              (map (render_sample subtopic) code)]
       end
  /\ note_items (render_subtopic lowerNonAscii subtopic)
     = map note_item (notes_of subtopic)
  /\ code_figures (render_subtopic lowerNonAscii subtopic)
     = map (render_sample subtopic) (samples_of subtopic).
Proof.
  rewrite select_subtopic_notes, select_subtopic_code.
  rewrite note_items_subtopic, code_figures_subtopic.
  now destruct (Subtopic.notes subtopic), (Subtopic.code subtopic).
Qed.

(** C10.  The renderer tells a property that is left out from an empty
    list: with [notes: []] the section has the notes list, with no item in
    it, and with [code: []] it has the code group, with no figure in it;
    with the property left out it has neither. *)
Theorem empty_lists_rendered title summary notes code :
  note_lists (render_subtopic lowerNonAscii (Subtopic.mk title summary (Some []) code))
  = [Element "ul" [ClassName "notes"] []]
  /\ code_groups (render_subtopic lowerNonAscii (Subtopic.mk title summary notes (Some [])))
     = [Element "div" [ClassName "codeGroup"] []]
  /\ note_lists (render_subtopic lowerNonAscii (Subtopic.mk title summary None code))
     = []
  /\ code_groups (render_subtopic lowerNonAscii (Subtopic.mk title summary notes None))
     = [].
Proof.
  rewrite !select_subtopic_notes, !select_subtopic_code. now repeat split.
Qed.

(** *** Code samples *)

Lemma code_figures_page content :
  code_figures (HomeOf lowerNonAscii content)
  = flat_map (fun topic =>
                flat_map (fun subtopic =>
                            map (render_sample subtopic) (samples_of subtopic))
                         (Topic.subtopics topic))
             content.
Proof.
  unfold code_figures. rewrite select_page_code.
  induction content as [|topic rest IH]; [reflexivity|].
  cbn [flat_map]. rewrite flat_map_app, IH. f_equal.
  induction (Topic.subtopics topic) as [|subtopic subs IHs]; [reflexivity|].
  cbn [flat_map]. rewrite flat_map_app, IHs. f_equal.
  unfold samples_of. destruct (Subtopic.code subtopic) as [code|]; [|reflexivity].
  cbn [when flat_map]. rewrite select_code_group. apply app_nil_r.
Qed.

Lemma map_flat_map (A B C : Type) (g : B -> C) (f : A -> list B) (l : list A) :
  map g (flat_map f l) = flat_map (fun x => map g (f x)) l.
Proof.
  induction l as [|x l IH]; [reflexivity|].
  cbn [flat_map]. now rewrite map_app, IH.
Qed.

(** C8.  For every code sample of the content model the page has a figure
    whose caption and whose content are text nodes that hold the authored
    strings themselves, code unit by code unit (newlines and blanks
    included); the figures stand in the order of the samples. *)
Theorem samples_verbatim (content : list Topic.t) :
  map children_of (code_figures (HomeOf lowerNonAscii content))
  = map sample_children (samples_in content)
  /\ map sample_view (code_figures (HomeOf lowerNonAscii content))
     = map authored_sample (samples_in content).
Proof.
  rewrite code_figures_page. unfold samples_in. rewrite !map_flat_map. split.
  - apply flat_map_ext. intros topic. rewrite !map_flat_map.
    apply flat_map_ext. intros subtopic. rewrite map_map. reflexivity.
  - apply flat_map_ext. intros topic. rewrite !map_flat_map.
    apply flat_map_ext. intros subtopic. rewrite map_map.
    apply map_ext. intros sample. apply sample_view_figure.
Qed.

End Rendered.

(** ** Concrete runs *)

Example slugify_example_spec :
  slugify keepNonAscii (lit "1.1 Definition and Characteristics")
  = lit "1-1-definition-and-characteristics".
Proof. vm_compute. reflexivity. Qed.

Example slugify_example_hyphens :
  slugify keepNonAscii (lit "--") = []
  /\ slugify keepNonAscii (lit "---") = []
  /\ trim (lit "---") = lit "-".
Proof. vm_compute. repeat split; reflexivity. Qed.

Example slugify_example_kelvin :
  slugify kelvinLower [8490%N; 32%N; 8364%N] = lit "k"
  /\ has_alnum kelvinLower [8490%N; 32%N; 8364%N] = true
  /\ slugify keepNonAscii [8490%N; 32%N; 8364%N] = [].
Proof. vm_compute. repeat split; reflexivity. Qed.

Example home_first_anchor :
  hd None (map id_of (topic_sections (Home keepNonAscii)))
  = Some (lit "1-array-fundamentals").
Proof. vm_compute. reflexivity. Qed.

Example home_counts :
  length (nav_entries (Home keepNonAscii)) = 10
  /\ length (topic_sections (Home keepNonAscii)) = 10
  /\ length (subtopic_sections (Home keepNonAscii)) = 21
  /\ length (note_lists (Home keepNonAscii)) = 21
  /\ length (code_groups (Home keepNonAscii)) = 20
  /\ length (code_figures (Home keepNonAscii)) = 20.
Proof. vm_compute. repeat split; reflexivity. Qed.

(** The pattern theorem at ["Arrays and Pointers"]. *)
Lemma slugify_matches_pattern_at_title :
  Matches slug_pattern (slugify keepNonAscii (lit "Arrays and Pointers")).
Proof.
  apply (proj1 (slugify_matches_pattern keepNonAscii (lit "Arrays and Pointers"))).
  - discriminate.
  - vm_compute. reflexivity.
Defined.

(** C6, as the specification words it, fails on a subtopic whose [code]
    list is empty: it has no code sample, and its section still has the
    code group (with no figure in it). *)
Lemma empty_code_list_keeps_group :
  ~ omits_empty_groups keepNonAscii empty_code_subtopic.
Proof.
  intros [_ H]. specialize (H eq_refl).
  rewrite select_subtopic_code in H. discriminate H.
Qed.

(** * Further properties of [slugify] *)

(** ** The slug as words joined by hyphens *)

Lemma words_runs s : words s = map snd (filter fst (Reference.runs s)).
Proof.
  induction s as [|c r IH]; [reflexivity|].
  destruct r as [|d r'].
  - cbn. now destruct (in_class c).
  - destruct (runs_head d r') as (g & gs & E).
    change (Reference.runs (c :: d :: r')) with
      (match Reference.runs (d :: r') with
       | (b, g) :: gs =>
           if Bool.eqb (in_class c) b then (b, c :: g) :: gs
           else (in_class c, [c]) :: (b, g) :: gs
       | [] => [(in_class c, [c])]
       end).
    change (words (c :: d :: r')) with
      (if in_class c then
         if in_class d then
           match words (d :: r') with
           | w :: ws => (c :: w) :: ws
           | [] => [[c]]
           end
         else [c] :: words (d :: r')
       else words (d :: r')).
    rewrite IH, E. destruct (in_class c), (in_class d); reflexivity.
Qed.

Lemma words_head d r :
  in_class d = true -> exists w ws, words (d :: r) = (d :: w) :: ws.
Proof.
  intros Hd. cbn [words]. rewrite Hd. destruct (starts_in_class r).
  - destruct (words r) as [|w ws]; [now exists [], []|now exists w, ws].
  - now exists [], (words r).
Qed.

Lemma words_class s :
  Forall (fun w => w <> [] /\ forallb in_class w = true) (words s).
Proof.
  induction s as [|c r IH]; [constructor|].
  cbn [words]. destruct (in_class c) eqn:Hc; [|assumption].
  destruct (starts_in_class r).
  - destruct (words r) as [|w ws].
    + repeat constructor; [discriminate|]. cbn. now rewrite Hc.
    + inversion IH as [|? ? [_ Hw] Hws]; subst. constructor; [|assumption].
      split; [discriminate|]. cbn. now rewrite Hc, Hw.
  - constructor; [|assumption]. split; [discriminate|]. cbn. now rewrite Hc.
Qed.

Lemma join_hyphen_cons c w ws :
  join_hyphen ((c :: w) :: ws) = c :: join_hyphen (w :: ws).
Proof. now destruct ws. Qed.

Lemma join_hyphen_unit c ws :
  join_hyphen ([c] :: ws)
  = c :: (if is_nil ws then [] else hyphen :: join_hyphen ws).
Proof. now destruct ws. Qed.

Lemma drop_last_collapse s :
  drop_last_hyphen (collapse s) = lead s ++ join_hyphen (words s).
Proof.
  induction s as [|c r IH]; [reflexivity|].
  rewrite collapse_cons. unfold lead. cbn [starts_in_class words].
  destruct (in_class c) eqn:Hc.
  - cbn [drop_last_hyphen negb andb app].
    rewrite (in_class_not_hyphen _ Hc), IH. cbn [andb]. unfold lead.
    destruct (starts_in_class r) eqn:Hr.
    + destruct r as [|d r']; [discriminate|].
      destruct (words_head d r' Hr) as (w & ws & ->).
      cbn [negb andb app]. symmetry. apply join_hyphen_cons.
    + rewrite join_hyphen_unit. cbn [negb andb].
      now destruct (words r).
  - cbn [negb andb]. destruct r as [|d r']; [reflexivity|].
    destruct (in_class d) eqn:Hd.
    + destruct (words_head d r' Hd) as (w & ws & E). rewrite E. cbn [is_nil negb app].
      assert (collapse (d :: r') <> []) as Hne
        by (rewrite collapse_cons, Hd; discriminate).
      destruct (collapse (d :: r')) as [|x rest] eqn:EX; [congruence|].
      cbn [drop_last_hyphen is_nil]. rewrite andb_false_r.
      f_equal. cbn [drop_last_hyphen] in IH. rewrite IH.
      unfold lead. cbn [starts_in_class]. now rewrite Hd, E.
    + rewrite IH. unfold lead. cbn [starts_in_class]. now rewrite Hd.
Qed.

Lemma trim_strip_drop s :
  trim s = Reference.strip_leading (drop_last_hyphen s).
Proof.
  destruct s as [|c r]; [reflexivity|].
  rewrite trim_cons. cbn [drop_last_hyphen].
  destruct (c =? hyphen)%N eqn:E; cbn [andb].
  - destruct r as [|d r']; [reflexivity|].
    cbn [is_nil Reference.strip_leading]. now rewrite E.
  - cbn [Reference.strip_leading]. now rewrite E.
Qed.

Lemma join_hyphen_no_lead s :
  Reference.strip_leading (join_hyphen (words s)) = join_hyphen (words s).
Proof.
  pose proof (words_class s) as H. destruct (words s) as [|w ws]; [reflexivity|].
  inversion H as [|? ? [Hne Hw] _]; subst.
  destruct w as [|d w']; [congruence|]. rewrite join_hyphen_cons.
  cbn [Reference.strip_leading]. cbn in Hw. apply andb_true_iff in Hw as [Hd _].
  now rewrite (in_class_not_hyphen _ Hd).
Qed.

Lemma trim_collapse_words s : trim (collapse s) = join_hyphen (words s).
Proof.
  rewrite trim_strip_drop, drop_last_collapse. unfold lead.
  destruct (negb (starts_in_class s) && negb (is_nil (words s))).
  - reflexivity.
  - apply join_hyphen_no_lead.
Qed.

(** X1.  The slug of a string is made of the words of its lowercase form
    (the maximal runs of code units in [a-z0-9]), in order, with one
    hyphen between two words. *)
Theorem slugify_words lowerNonAscii (s : jsstring) :
  slugify lowerNonAscii s = join_hyphen (words (toLowerCase lowerNonAscii s))
  /\ Forall (fun w => w <> [] /\ forallb in_class w = true)
            (words (toLowerCase lowerNonAscii s)).
Proof.
  split.
  - unfold slugify. apply trim_collapse_words.
  - apply words_class.
Qed.

(** ** Fixed points *)

(** X2.  The strings [slugify] returns unchanged are the empty string and
    the strings that match [^[a-z0-9]+(-[a-z0-9]+)*$], and no other. *)
Theorem slugify_fixed_points lowerNonAscii (s : jsstring) :
  slugify lowerNonAscii s = s <-> s = [] \/ Matches slug_pattern s.
Proof.
  split.
  - intros E. destruct (slugify_empty_or_slug lowerNonAscii s) as [H|H];
      rewrite E in H; [now left|right]. now apply is_slug_matches.
  - intros [->|H]; [reflexivity|].
    apply slugify_slug. now apply is_slug_iff_matches.
Qed.

(** ** What survives *)

Lemma collapse_keeps_filter s :
  filter in_class (collapse s) = filter in_class s.
Proof.
  induction s as [|c r IH]; [reflexivity|].
  rewrite collapse_cons. cbn [filter]. destruct (in_class c) eqn:Hc.
  - cbn [filter]. now rewrite Hc, IH.
  - destruct r as [|d r']; [reflexivity|].
    destruct (in_class d); [|exact IH].
    cbn [filter] in *. now rewrite hyphen_not_in_class.
Qed.

Lemma drop_last_keeps_filter s :
  filter in_class (drop_last_hyphen s) = filter in_class s.
Proof.
  induction s as [|c r IH]; [reflexivity|].
  cbn [drop_last_hyphen]. destruct ((c =? hyphen)%N && is_nil r) eqn:E.
  - apply andb_true_iff in E as [Eh Hr]. apply N.eqb_eq in Eh. subst c.
    destruct r; [reflexivity|discriminate].
  - cbn [filter]. now rewrite IH.
Qed.

Lemma trim_keeps_filter s : filter in_class (trim s) = filter in_class s.
Proof.
  destruct s as [|c r]; [reflexivity|]. rewrite trim_cons.
  destruct (c =? hyphen)%N eqn:Eh; cbn [filter];
    rewrite drop_last_keeps_filter; [|reflexivity].
  apply N.eqb_eq in Eh. subst c. reflexivity.
Qed.

Lemma collapse_length s : length (collapse s) <= length s.
Proof.
  induction s as [|c r IH]; [reflexivity|].
  rewrite collapse_cons. destruct (in_class c).
  - cbn [length]. lia.
  - destruct r as [|d r']; [reflexivity|].
    destruct (in_class d); cbn [length] in *; lia.
Qed.

Lemma drop_last_length s : length (drop_last_hyphen s) <= length s.
Proof.
  induction s as [|c r IH]; [reflexivity|].
  cbn [drop_last_hyphen]. destruct ((c =? hyphen)%N && is_nil r); cbn [length]; lia.
Qed.

Lemma trim_length s : length (trim s) <= length s.
Proof.
  destruct s as [|c r]; [reflexivity|]. rewrite trim_cons.
  pose proof (drop_last_length r). destruct (c =? hyphen)%N; cbn [length]; lia.
Qed.

(** X3.  [slugify] keeps the code units of [a-z0-9] of the lowercase form
    of its input, all of them and in their order, and it is never longer
    than the lowercase form. *)
Theorem slugify_keeps_alnum lowerNonAscii (s : jsstring) :
  filter in_class (slugify lowerNonAscii s)
  = filter in_class (toLowerCase lowerNonAscii s)
  /\ length (slugify lowerNonAscii s) <= length (toLowerCase lowerNonAscii s).
Proof.
  split.
  - unfold slugify. now rewrite trim_keeps_filter, collapse_keeps_filter.
  - unfold slugify.
    pose proof (trim_length (collapse (toLowerCase lowerNonAscii s))).
    pose proof (collapse_length (toLowerCase lowerNonAscii s)). lia.
Qed.

(** ** ASCII inputs: composition and collisions *)

Lemma lower_from_ascii lowerNonAscii s :
  forallb is_ascii s = true ->
  forall before, lower_from lowerNonAscii before s = map lower_ascii s.
Proof.
  induction s as [|c r IH]; [reflexivity|].
  cbn [forallb]. intros H before. apply andb_true_iff in H as [Hc Hr].
  cbn [lower_from map]. rewrite IH by assumption.
  unfold lower_unit, lower_ascii. rewrite Hc. now destruct (is_upper c).
Qed.

Lemma separator_ascii p :
  forallb is_separator p = true -> forallb is_ascii p = true.
Proof.
  induction p as [|c r IH]; [reflexivity|]. cbn [forallb]. intros H.
  apply andb_true_iff in H as [Hc Hr]. rewrite (IH Hr), andb_true_r.
  unfold is_separator in Hc. now destruct (is_ascii c).
Qed.

Lemma separator_lower p :
  forallb is_separator p = true ->
  map lower_ascii p = p /\ forallb (fun c => negb (in_class c)) p = true.
Proof.
  induction p as [|c r IH]; [now split|]. cbn [forallb map]. intros H.
  apply andb_true_iff in H as [Hc Hr]. destruct (IH Hr) as [-> ->].
  unfold is_separator in Hc. unfold lower_ascii.
  destruct (is_ascii c), (in_class c), (is_upper c); try discriminate.
  now split.
Qed.

Lemma words_skip p y :
  forallb (fun c => negb (in_class c)) p = true -> words (p ++ y) = words y.
Proof.
  induction p as [|c r IH]; [reflexivity|]. cbn [forallb app words]. intros H.
  apply andb_true_iff in H as [Hc Hr]. apply negb_true_iff in Hc.
  rewrite Hc. now apply IH.
Qed.

Lemma words_app_sep x p y :
  p <> [] -> forallb (fun c => negb (in_class c)) p = true ->
  words (x ++ p ++ y) = words x ++ words y.
Proof.
  intros Hne Hp. induction x as [|c x' IH]; [cbn [app words]; now apply words_skip|].
  cbn [app words]. rewrite IH. destruct (in_class c); [|reflexivity].
  destruct x' as [|d x''].
  - cbn [app starts_in_class words]. destruct p as [|e p']; [congruence|].
    cbn [forallb] in Hp. apply andb_true_iff in Hp as [He _].
    apply negb_true_iff in He. cbn [app starts_in_class]. now rewrite He.
  - cbn [app starts_in_class]. destruct (in_class d) eqn:Hd; [|reflexivity].
    destruct (words_head d x'' Hd) as (w & ws & ->). reflexivity.
Qed.

Lemma join_hyphen_nil ws :
  Forall (fun w : jsstring => w <> []) ws ->
  is_nil (join_hyphen ws) = is_nil ws.
Proof.
  intros H. destruct ws as [|w rest]; [reflexivity|].
  inversion H as [|? ? Hw _]; subst. cbn [join_hyphen is_nil].
  destruct w; [congruence|]. now destruct rest.
Qed.

Lemma join_hyphen_more w x l :
  join_hyphen (w :: x :: l) = w ++ hyphen :: join_hyphen (x :: l).
Proof. reflexivity. Qed.

Lemma glue_nonempty x y :
  x <> [] -> y <> [] -> glue x y = x ++ hyphen :: y.
Proof. intros Hx Hy. unfold glue. destruct x, y; cbn; congruence. Qed.

Lemma join_hyphen_nonempty ws :
  Forall (fun w : jsstring => w <> []) ws -> ws <> [] -> join_hyphen ws <> [].
Proof.
  intros H Hne E. apply (f_equal (@is_nil N)) in E.
  rewrite join_hyphen_nil in E by assumption. destruct ws; [congruence|discriminate].
Qed.

Lemma join_hyphen_app ws1 ws2 :
  Forall (fun w : jsstring => w <> []) ws1 ->
  Forall (fun w : jsstring => w <> []) ws2 ->
  join_hyphen (ws1 ++ ws2) = glue (join_hyphen ws1) (join_hyphen ws2).
Proof.
  intros H1 H2. induction H1 as [|w rest Hw Hrest IH]; [reflexivity|].
  destruct ws2 as [|v ws2'].
  - rewrite app_nil_r. change (join_hyphen []) with (@nil N). unfold glue.
    now destruct (join_hyphen (w :: rest)).
  - assert (join_hyphen (v :: ws2') <> []) as Hv
      by (apply join_hyphen_nonempty; [assumption|discriminate]).
    destruct rest as [|w' rest'].
    + cbn [app]. rewrite join_hyphen_more.
      rewrite glue_nonempty by assumption. reflexivity.
    + assert (join_hyphen (w' :: rest') <> []) as Hw'
        by (apply join_hyphen_nonempty; [assumption|discriminate]).
      change ((w :: w' :: rest') ++ v :: ws2')
        with (w :: w' :: (rest' ++ v :: ws2')).
      rewrite join_hyphen_more.
      change (w' :: rest' ++ v :: ws2') with ((w' :: rest') ++ v :: ws2').
      rewrite IH, join_hyphen_more.
      rewrite !glue_nonempty; try assumption.
      * now rewrite <- app_assoc.
      * destruct w; [congruence|discriminate].
Qed.

Lemma nonempty_words s : Forall (fun w : jsstring => w <> []) (words s).
Proof.
  eapply Forall_impl; [|apply words_class]. now intros w [H _].
Qed.

Lemma slugify_ascii lowerNonAscii s :
  forallb is_ascii s = true ->
  slugify lowerNonAscii s = join_hyphen (words (map lower_ascii s)).
Proof.
  intros H. unfold slugify, toLowerCase.
  rewrite lower_from_ascii by assumption. apply trim_collapse_words.
Qed.

Lemma slugify_ascii_sep lowerNonAscii a p b :
  forallb is_ascii a = true -> forallb is_ascii b = true ->
  p <> [] -> forallb is_separator p = true ->
  slugify lowerNonAscii (a ++ p ++ b)
  = join_hyphen (words (map lower_ascii a) ++ words (map lower_ascii b)).
Proof.
  intros Ha Hb Hne Hp. rewrite slugify_ascii.
  - destruct (separator_lower p Hp) as [E Hc].
    rewrite !map_app, E. now rewrite words_app_sep.
  - rewrite !forallb_app, Ha, Hb. now rewrite (separator_ascii p Hp).
Qed.

(** X4.  For ASCII strings [a] and [b] and a separator [p] of one or more
    ASCII code units that are neither letters nor digits, the slug of
    [a ++ p ++ b] is the slug of [a], a hyphen and the slug of [b]; when one
    of the two slugs is empty it is the other one, with no hyphen. *)
Theorem slugify_glue lowerNonAscii (a p b : jsstring) :
  forallb is_ascii a = true -> forallb is_ascii b = true ->
  p <> [] -> forallb is_separator p = true ->
  slugify lowerNonAscii (a ++ p ++ b)
  = glue (slugify lowerNonAscii a) (slugify lowerNonAscii b).
Proof.
  intros Ha Hb Hne Hp.
  rewrite slugify_ascii_sep by assumption.
  rewrite !slugify_ascii by assumption.
  apply join_hyphen_app; apply nonempty_words.
Qed.

(** X5.  Slugs collide: two ASCII titles that differ only in the case of
    their letters and in the separator between two parts (any one or more
    ASCII code units that are neither letters nor digits) have the same
    slug. *)
Theorem slugify_collides lowerNonAscii (a a' p q b b' : jsstring) :
  forallb is_ascii a = true -> forallb is_ascii b = true ->
  forallb is_ascii a' = true -> forallb is_ascii b' = true ->
  map lower_ascii a = map lower_ascii a' ->
  map lower_ascii b = map lower_ascii b' ->
  p <> [] -> forallb is_separator p = true ->
  q <> [] -> forallb is_separator q = true ->
  slugify lowerNonAscii (a ++ p ++ b) = slugify lowerNonAscii (a' ++ q ++ b').
Proof.
  intros Ha Hb Ha' Hb' Ea Eb Hp Sp Hq Sq.
  rewrite !slugify_ascii_sep by assumption. now rewrite Ea, Eb.
Qed.

(** Witnesses of the two theorems on ASCII inputs. *)
Lemma slugify_glue_at_title :
  slugify keepNonAscii (lit "Arrays" ++ lit " & " ++ lit "Pointers")
  = glue (slugify keepNonAscii (lit "Arrays")) (slugify keepNonAscii (lit "Pointers")).
Proof.
  apply slugify_glue;
    [vm_compute; reflexivity | vm_compute; reflexivity
     | discriminate | vm_compute; reflexivity].
Defined.

Lemma slugify_collides_at_titles :
  slugify keepNonAscii (lit "Arrays" ++ lit " & " ++ lit "Pointers")
  = slugify keepNonAscii (lit "ARRAYS" ++ lit "/" ++ lit "pointers").
Proof.
  apply slugify_collides;
    try (vm_compute; reflexivity); discriminate.
Defined.

(** * Further properties of the page *)

Ltac select_ids_step :=
  rewrite ?select_element, ?select_text;
  cbn [has_id has_id_eq id_of first_attr attr_id flat_map app when map].

Ltac select_ids := repeat progress select_ids_step.

Ltac select_ids_children :=
  repeat match goal with
  | |- context [flat_map (select ?p) (map ?f ?l)] =>
      erewrite (select_map p f)
        by (intros; cbv beta;
            match goal with
            | |- _ = ?rhs =>
                let found := fresh "found" in
                set (found := rhs); select_ids; subst found
            end; reflexivity)
  end;
  rewrite ?flat_map_none, ?flat_map_one.

Section Anchors.

Variable lowerNonAscii : jsstring -> N -> jsstring -> jsstring.

Lemma ids_subtopic subtopic :
  select has_id (render_subtopic lowerNonAscii subtopic)
  = [render_subtopic lowerNonAscii subtopic].
Proof.
  unfold render_subtopic, render_sample.
  destruct (Subtopic.notes subtopic), (Subtopic.code subtopic);
    select_ids; select_ids_children; reflexivity.
Qed.

Lemma ids_topic topic :
  select has_id (render_topic lowerNonAscii topic)
  = render_topic lowerNonAscii topic
    :: map (render_subtopic lowerNonAscii) (Topic.subtopics topic).
Proof.
  unfold render_topic. select_ids.
  erewrite (select_map _ (render_subtopic lowerNonAscii)) by (exact ids_subtopic).
  now rewrite flat_map_one, app_nil_r.
Qed.

Lemma ids_page content :
  select has_id (HomeOf lowerNonAscii content)
  = flat_map (fun topic =>
                render_topic lowerNonAscii topic
                :: map (render_subtopic lowerNonAscii) (Topic.subtopics topic))
             content.
Proof.
  unfold HomeOf, render_nav_entry. select_ids.
  erewrite (select_map _ (render_topic lowerNonAscii)) by (exact ids_topic).
  select_ids_children. now rewrite !app_nil_r.
Qed.

Lemma ids_of_sections content :
  map id_of
      (flat_map (fun topic =>
                   render_topic lowerNonAscii topic
                   :: map (render_subtopic lowerNonAscii) (Topic.subtopics topic))
                content)
  = map (fun title => Some (slugify lowerNonAscii title)) (titles_of content).
Proof.
  unfold titles_of. induction content as [|topic rest IH]; [reflexivity|].
  cbn [flat_map]. rewrite !map_app, IH. f_equal.
  cbn [map]. f_equal. now rewrite !map_map.
Qed.

(** X6.  The elements of the page that have an [id] are the topic and the
    subtopic sections and no other; in document order their ids are the
    slugs of the titles of the content model, each topic followed by its
    subtopics. *)
Theorem page_ids (content : list Topic.t) :
  select has_id (HomeOf lowerNonAscii content)
  = flat_map (fun topic =>
                render_topic lowerNonAscii topic
                :: map (render_subtopic lowerNonAscii) (Topic.subtopics topic))
             content
  /\ map id_of (select has_id (HomeOf lowerNonAscii content))
     = map (fun title => Some (slugify lowerNonAscii title)) (titles_of content).
Proof.
  rewrite ids_page. split; [reflexivity|]. apply ids_of_sections.
Qed.

(** *** Fragments resolve *)








End Anchors.


(** ** Keys *)

Lemma forallb_flat_map (A B : Type) (p : B -> bool) (f : A -> list B) l :
  forallb p (flat_map f l) = forallb (fun x => forallb p (f x)) l.
Proof.
  induction l as [|x l IH]; [reflexivity|].
  cbn [flat_map forallb]. now rewrite forallb_app, IH.
Qed.

Lemma forallb_map_as (A B : Type) (p : B -> bool) (f : A -> B) (q : A -> bool) l :
  (forall x, p (f x) = q x) -> forallb p (map f l) = forallb q l.
Proof.
  intros H. induction l as [|x l IH]; [reflexivity|].
  cbn [map forallb]. now rewrite H, IH.
Qed.

Lemma forallb_always (A : Type) (l : list A) : forallb (fun _ => true) l = true.
Proof. induction l; [reflexivity|assumption]. Qed.

Lemma keys_ok_element tag attrs children :
  keys_ok (Element tag attrs children)
  = distinct (child_keys (Element tag attrs children)) && forallb keys_ok children.
Proof. unfold keys_ok. cbn [nodes forallb]. now rewrite forallb_flat_map. Qed.

Lemma keys_ok_text s : keys_ok (Text s) = true.
Proof. reflexivity. Qed.

Lemma child_keys_map (A : Type) (f : A -> Node) (k : A -> jsstring) l :
  (forall x, key_of (f x) = Some (k x)) ->
  flat_map (fun child => match key_of child with Some k => [k] | None => [] end)
           (map f l)
  = map k l.
Proof.
  intros H. induction l as [|x l IH]; [reflexivity|].
  cbn [map flat_map]. now rewrite H, IH.
Qed.

Lemma jsstring_eqb_refl s : jsstring_eqb s s = true.
Proof. now apply jsstring_eqb_eq. Qed.

Lemma jsstring_eqb_app p s t :
  jsstring_eqb (p ++ s) (p ++ t) = jsstring_eqb s t.
Proof.
  induction p as [|c p IH]; [reflexivity|].
  cbn [app jsstring_eqb]. now rewrite N.eqb_refl, IH.
Qed.

Lemma distinct_prefixed (A : Type) (g : A -> jsstring) p l :
  distinct (map (fun x => p ++ g x) l) = distinct (map g l).
Proof.
  induction l as [|x l IH]; [reflexivity|].
  cbn [map distinct]. rewrite IH. f_equal. f_equal.
  clear IH. induction l as [|y l IH]; [reflexivity|].
  cbn [map existsb]. now rewrite jsstring_eqb_app, IH.
Qed.

Ltac keys_step :=
  rewrite ?keys_ok_element, ?keys_ok_text;
  cbn [child_keys children_of flat_map key_of first_attr attr_key app
       distinct forallb andb when map].

Ltac keys_all := repeat progress keys_step.

Section Keys.

Variable lowerNonAscii : jsstring -> N -> jsstring -> jsstring.

Lemma keys_sample subtopic sample :
  keys_ok (render_sample subtopic sample) = true.
Proof. unfold render_sample. keys_all. reflexivity. Qed.

Lemma keys_subtopic subtopic :
  keys_ok (render_subtopic lowerNonAscii subtopic) = subtopic_keyed subtopic.
Proof.
  unfold render_subtopic, subtopic_keyed, notes_of, samples_of.
  destruct (Subtopic.notes subtopic) as [notes|],
           (Subtopic.code subtopic) as [code|];
    keys_all;
    rewrite ?(child_keys_map _ (fun note : jsstring => note)) by reflexivity;
    rewrite ?(child_keys_map _
                (fun sample =>
                   Subtopic.title subtopic ++ lit "-" ++ CodeSample.caption sample))
      by reflexivity;
    rewrite ?(forallb_map_as _ _ (fun _ => true))
      by (intros; keys_all; reflexivity);
    rewrite ?(forallb_map_as _ _ (fun _ => true)) by (apply keys_sample);
    rewrite ?forallb_always, ?map_id, ?andb_true_r;
    rewrite ?(distinct_prefixed
                (fun sample => lit "-" ++ CodeSample.caption sample)
                (Subtopic.title subtopic)),
            ?(distinct_prefixed CodeSample.caption (lit "-"));
    reflexivity.
Qed.

Lemma keys_topic topic :
  keys_ok (render_topic lowerNonAscii topic) = topic_keyed topic.
Proof.
  unfold render_topic, topic_keyed. keys_all.
  rewrite (child_keys_map _ Subtopic.title) by reflexivity.
  rewrite (forallb_map_as _ _ subtopic_keyed) by (apply keys_subtopic).
  now rewrite andb_true_r.
Qed.

Lemma keys_nav_entry topic :
  keys_ok (render_nav_entry lowerNonAscii topic) = true.
Proof. unfold render_nav_entry. keys_all. reflexivity. Qed.

Lemma keys_page content :
  keys_ok (HomeOf lowerNonAscii content) = well_keyed content.
Proof.
  unfold HomeOf, well_keyed. keys_all.
  rewrite !(child_keys_map _ Topic.title) by reflexivity.
  rewrite (forallb_map_as _ _ (fun _ => true)) by (apply keys_nav_entry).
  rewrite (forallb_map_as _ _ topic_keyed) by (apply keys_topic).
  rewrite forallb_always, ?andb_true_r.
  now destruct (distinct (map Topic.title content)).
Qed.

(** X8.  Among the children of one element of the page no React key
    occurs twice exactly when, in the content model, the topic titles are
    pairwise distinct, and so are the subtopic titles of each topic and
    the notes and the sample captions of each subtopic; the authored
    content model is such, so [Home] has no duplicate key. *)
Theorem keys_distinct (content : list Topic.t) :
  keys_ok (HomeOf lowerNonAscii content) = well_keyed content
  /\ keys_ok (Home lowerNonAscii) = true.
Proof.
  split; [apply keys_page|].
  unfold Home. rewrite keys_page. vm_compute. reflexivity.
Qed.

(** ** The page determines the content model *)

Lemma map_injective (A B : Type) (f g : A -> B) l1 l2 :
  (forall x y, f x = g y -> x = y) -> map f l1 = map g l2 -> l1 = l2.
Proof.
  intros H. revert l2. induction l1 as [|x l1 IH]; intros [|y l2] E;
    try discriminate; [reflexivity|].
  cbn [map] in E. injection E as Exy El. f_equal; [now apply H|now apply IH].
Qed.

Lemma render_sample_injective s1 s2 c1 c2 :
  render_sample s1 c1 = render_sample s2 c2 -> c1 = c2.
Proof.
  unfold render_sample. intros E. injection E as _ Ecap Econ.
  destruct c1, c2. cbn in *. congruence.
Qed.

Lemma render_subtopic_injective s1 s2 :
  render_subtopic lowerNonAscii s1 = render_subtopic lowerNonAscii s2 -> s1 = s2.
Proof.
  unfold render_subtopic. intros E. injection E as Et _ _ Es Erest.
  destruct s1 as [t1 m1 n1 c1], s2 as [t2 m2 n2 c2]. cbn in *. subst.
  assert (n1 = n2 /\ c1 = c2) as [-> ->]; [|reflexivity].
  destruct n1 as [n1|], n2 as [n2|], c1 as [c1|], c2 as [c2|];
    cbn in Erest; try discriminate; try (injection Erest as E1 E2);
    try (injection Erest as E1); split; try reflexivity; f_equal;
    try (eapply map_injective; [|eassumption]; intros x y Exy;
         first [ now injection Exy | now apply render_sample_injective in Exy ]).
Qed.

Lemma render_topic_injective t1 t2 :
  render_topic lowerNonAscii t1 = render_topic lowerNonAscii t2 -> t1 = t2.
Proof.
  unfold render_topic. intros E. injection E as Et _ _ Es Esubs.
  destruct t1, t2. cbn in *. subst. f_equal.
  eapply map_injective; [|eassumption]. intros x y.
  apply render_subtopic_injective.
Qed.

(** X9.  The page determines the content model: two content models that
    render to the same tree are equal, topic by topic, down to every
    summary, note and code sample and to whether the [notes] and [code]
    properties are there. *)
Theorem HomeOf_injective (content1 content2 : list Topic.t) :
  HomeOf lowerNonAscii content1 = HomeOf lowerNonAscii content2 ->
  content1 = content2.
Proof.
  unfold HomeOf. intros E. injection E as _ E.
  eapply map_injective; [|eassumption]. intros x y.
  apply render_topic_injective.
Qed.

End Keys.

(** Witness of [HomeOf_injective]: a page that equals [Home] renders the
    authored content model. *)
Lemma HomeOf_injective_home : topics = topics.
Proof.
  apply (@HomeOf_injective keepNonAscii topics topics). reflexivity.
Defined.
